(** * helm-walk: path resolution and flattening of a YAML node tree

    A shallow embedding of [main.go]: [findNodeByPath], [getMapValue],
    [isEmptyNode], [walk] and the part of [main] that chains them.

    Go strings are byte sequences, modelled by [string] (a list of
    [ascii]); Go [int] is 64 bits wide and modelled by [Z].  The functions
    of the Go standard library and of [gopkg.in/yaml.v3] that the program
    calls are modelled in modules that carry the package's name. *)

From Stdlib Require Import ZArith List String Ascii Bool Lia DecimalString.
From Stdlib Require DecimalPos.
Import ListNotations.
Local Open Scope string_scope.
Local Open Scope Z_scope.

(** ** Bytes *)

Definition byte_of (c : ascii) : Z := Z.of_nat (nat_of_ascii c).

Definition LF : ascii := ascii_of_nat 10.
Definition dquote : ascii := ascii_of_nat 34.
Definition backslash : ascii := ascii_of_nat 92.

(** [len(s)] as a Go [int]. *)
Definition len (s : string) : Z := Z.of_nat (String.length s).

(** ** Run-time panics

    An index or slice expression out of bounds aborts the program.  The
    payload records the offending bounds. *)

Inductive panic : Type :=
| IndexPanic (i : Z) (n : Z)          (* index out of range [i] with length n *)
| SlicePanic (lo hi : Z) (n : Z).     (* slice bounds out of range [lo:hi] *)

(** A Go function of result type [(T, error)] that may also panic. *)
Inductive result (A : Type) : Type :=
| Ok (a : A)
| Err (e : string)
| Panicked (p : panic).
Arguments Ok {A} a.
Arguments Err {A} e.
Arguments Panicked {A} p.

(** [s[lo:hi]] *)
Definition slice (s : string) (lo hi : Z) : result string :=
  if (0 <=? lo) && (lo <=? hi) && (hi <=? len s)
  then Ok (substring (Z.to_nat lo) (Z.to_nat (hi - lo)) s)
  else Panicked (SlicePanic lo hi (len s)).

(** [l[i]] on a slice of nodes or strings. *)
Definition index {A : Type} (l : list A) (i : Z) : result A :=
  if (0 <=? i) && (i <? Z.of_nat (List.length l))
  then match nth_error l (Z.to_nat i) with
       | Some a => Ok a
       | None => Panicked (IndexPanic i (Z.of_nat (List.length l)))
       end
  else Panicked (IndexPanic i (Z.of_nat (List.length l))).

(** ** Package [unicode/utf8] *)

Module utf8.

Definition RuneError : Z := 65533.
Definition RuneSelf : Z := 128.
Definition UTFMax : nat := 4.

(** Continuation byte range, and the range accepted for the second byte
    after the lead byte [b0] (table [acceptRanges]). *)
Definition locb : Z := 128.
Definition hicb : Z := 191.

Definition accept (b0 : Z) : Z * Z :=
  if b0 =? 224 then (160, hicb)
  else if b0 =? 237 then (locb, 159)
  else if b0 =? 240 then (144, hicb)
  else if b0 =? 244 then (locb, 143)
  else (locb, hicb).

(** Encoded length announced by a lead byte, [0] for a byte that cannot
    start a multi-byte sequence (table [first]). *)
Definition leadSize (b0 : Z) : Z :=
  if (194 <=? b0) && (b0 <=? 223) then 2
  else if (224 <=? b0) && (b0 <=? 239) then 3
  else if (240 <=? b0) && (b0 <=? 244) then 4
  else 0.

Definition cont (b : Z) : bool := (locb <=? b) && (b <=? hicb).

Definition DecodeRuneInString (s : string) : Z * Z :=
  match s with
  | EmptyString => (RuneError, 0)
  | String c0 t0 =>
    let s0 := byte_of c0 in
    if s0 <? RuneSelf then (s0, 1)
    else
      let sz := leadSize s0 in
      if sz =? 0 then (RuneError, 1)
      else if len s <? sz then (RuneError, 1)
      else
        match t0 with
        | EmptyString => (RuneError, 1)
        | String c1 t1 =>
          let s1 := byte_of c1 in
          let '(lo, hi) := accept s0 in
          if (s1 <? lo) || (hi <? s1) then (RuneError, 1)
          else if sz <=? 2
          then (Z.lor (Z.shiftl (Z.land s0 31) 6) (Z.land s1 63), 2)
          else
            match t1 with
            | EmptyString => (RuneError, 1)
            | String c2 t2 =>
              let s2 := byte_of c2 in
              if negb (cont s2) then (RuneError, 1)
              else if sz <=? 3
              then (Z.lor (Z.lor (Z.shiftl (Z.land s0 15) 12)
                                 (Z.shiftl (Z.land s1 63) 6))
                          (Z.land s2 63), 3)
              else
                match t2 with
                | EmptyString => (RuneError, 1)
                | String c3 _ =>
                  let s3 := byte_of c3 in
                  if negb (cont s3) then (RuneError, 1)
                  else (Z.lor (Z.lor (Z.lor (Z.shiftl (Z.land s0 7) 18)
                                            (Z.shiftl (Z.land s1 63) 12))
                                     (Z.shiftl (Z.land s2 63) 6))
                              (Z.land s3 63), 4)
                end
            end
        end
  end.

Definition byteAt (s : string) (i : nat) : Z :=
  match String.get i s with
  | Some c => byte_of c
  | None => 0
  end.

Definition RuneStart (b : Z) : bool := negb (Z.land b 192 =? 128).

(** The backwards scan of [DecodeLastRuneInString]:
    [for start--; start >= lim; start-- { if RuneStart(s[start]) { break } }],
    entered with [start] already decremented; [k] bounds the iterations. *)
Fixpoint scanStart (s : string) (start lim : Z) (k : nat) : Z :=
  match k with
  | O => start
  | S k' =>
    if start <? lim then start
    else if RuneStart (byteAt s (Z.to_nat start)) then start
    else scanStart s (start - 1) lim k'
  end.

Definition DecodeLastRuneInString (s : string) : Z * Z :=
  let e := len s in
  if e =? 0 then (RuneError, 0)
  else
    let r := byteAt s (Z.to_nat (e - 1)) in
    if r <? RuneSelf then (r, 1)
    else
      let lim := Z.max 0 (e - Z.of_nat UTFMax) in
      let start := Z.max 0 (scanStart s (e - 2) lim UTFMax) in
      let '(r', size) :=
        DecodeRuneInString
          (substring (Z.to_nat start) (Z.to_nat (e - start)) s) in
      if start + size =? e then (r', size) else (RuneError, 1).

End utf8.

(** ** Package [unicode] *)

Module unicode.

Definition MaxLatin1 : Z := 255.

(** [IsSpace]: the Latin-1 cases, then the [White_Space] range table. *)
Definition IsSpace (r : Z) : bool :=
  if r <=? MaxLatin1
  then ((9 <=? r) && (r <=? 13)) || (r =? 32) || (r =? 133) || (r =? 160)
  else (r =? 5760) || ((8192 <=? r) && (r <=? 8202))
       || (r =? 8232) || (r =? 8233) || (r =? 8239) || (r =? 8287)
       || (r =? 12288).

End unicode.

(** ** Package [strings]

    The separators and search strings the program passes are all one byte
    long ([.], [\n], the brackets, the double quote and the space), so the
    functions that take a separator or a substring take a byte here. *)

Module strings.

(** [Index(s, string(c))]: position of the first [c], [-1] when absent. *)
Fixpoint Index (s : string) (c : ascii) : Z :=
  match s with
  | EmptyString => -1
  | String a t =>
    if Ascii.eqb a c then 0
    else let i := Index t c in if i <? 0 then -1 else i + 1
  end.

Definition Contains (s : string) (c : ascii) : bool := 0 <=? Index s c.

(** [ContainsAny(s, chars)] for ASCII [chars], where it is a test on
    bytes. *)
Fixpoint ContainsAny (s chars : string) : bool :=
  match s with
  | EmptyString => false
  | String a t => (0 <=? Index chars a) || ContainsAny t chars
  end.

(** [Split(s, string(sep))] *)
Fixpoint Split (s : string) (sep : ascii) : list string :=
  match s with
  | EmptyString => [EmptyString]
  | String a t =>
    if Ascii.eqb a sep then EmptyString :: Split t sep
    else match Split t sep with
         | [] => [String a EmptyString]
         | w :: ws => String a w :: ws
         end
  end.

(** [Join(elems, sep)] *)
Fixpoint Join (elems : list string) (sep : string) : string :=
  match elems with
  | [] => EmptyString
  | [e] => e
  | e :: rest => e ++ sep ++ Join rest sep
  end.

Definition HasPrefix (s : string) (c : ascii) : bool :=
  match s with
  | EmptyString => false
  | String a _ => Ascii.eqb a c
  end.

Fixpoint HasSuffix (s : string) (c : ascii) : bool :=
  match s with
  | EmptyString => false
  | String a EmptyString => Ascii.eqb a c
  | String _ t => HasSuffix t c
  end.

(** [ReplaceAll(s, string(old), new)] *)
Fixpoint ReplaceAll (s : string) (old : ascii) (new : string) : string :=
  match s with
  | EmptyString => EmptyString
  | String a t =>
    if Ascii.eqb a old then new ++ ReplaceAll t old new
    else String a (ReplaceAll t old new)
  end.

(** [indexFunc(s, f, false)]: byte offset of the first rune that [f]
    rejects; [k] bounds the number of runes, [i] is the offset of [s] in
    the string the search started from. *)
Fixpoint indexFuncFalse (f : Z -> bool) (s : string) (i : Z) (k : nat) : Z :=
  match k with
  | O => -1
  | S k' =>
    if len s =? 0 then -1
    else
      let '(r, size) := utf8.DecodeRuneInString s in
      if negb (f r) then i
      else indexFuncFalse f
             (substring (Z.to_nat size) (String.length s) s) (i + size) k'
  end.

(** [lastIndexFunc(s, f, false)]: [i] runs down from [len(s)]. *)
Fixpoint lastIndexFuncFalse (f : Z -> bool) (s : string) (i : Z) (k : nat) : Z :=
  match k with
  | O => -1
  | S k' =>
    if i <=? 0 then -1
    else
      let '(r, size) :=
        utf8.DecodeLastRuneInString (substring 0 (Z.to_nat i) s) in
      let i' := i - size in
      if negb (f r) then i'
      else lastIndexFuncFalse f s i' k'
  end.

Definition TrimLeftFunc (s : string) (f : Z -> bool) : string :=
  let i := indexFuncFalse f s 0 (String.length s) in
  if i =? -1 then EmptyString
  else substring (Z.to_nat i) (String.length s) s.

Definition TrimRightFunc (s : string) (f : Z -> bool) : string :=
  let i := lastIndexFuncFalse f s (len s) (String.length s) in
  let j :=
    if (0 <=? i) && (utf8.RuneSelf <=? utf8.byteAt s (Z.to_nat i))
    then i + snd (utf8.DecodeRuneInString
                    (substring (Z.to_nat i) (String.length s) s))
    else i + 1 in
  substring 0 (Z.to_nat j) s.

Definition TrimFunc (s : string) (f : Z -> bool) : string :=
  TrimRightFunc (TrimLeftFunc s f) f.

Definition asciiSpace (c : Z) : bool :=
  ((9 <=? c) && (c <=? 13)) || (c =? 32).

(** First loop of [TrimSpace]: the offset [start] of the first byte
    that is not an ASCII space, and whether that byte is non-ASCII, in
    which case the rest of the trim is left to [TrimFunc]. *)
Fixpoint trimStart (s : string) (start : Z) : Z * bool :=
  match s with
  | EmptyString => (start, false)
  | String a t =>
    let c := byte_of a in
    if utf8.RuneSelf <=? c then (start, true)
    else if asciiSpace c then trimStart t (start + 1)
    else (start, false)
  end.

(** Second loop of [TrimSpace], from the end down to [start]; a
    non-ASCII byte leaves the rest to [TrimRightFunc]. *)
Fixpoint trimStop (s : string) (start stop : Z) (k : nat) : Z * bool :=
  match k with
  | O => (stop, false)
  | S k' =>
    if stop <=? start then (stop, false)
    else
      let c := utf8.byteAt s (Z.to_nat (stop - 1)) in
      if utf8.RuneSelf <=? c then (stop, true)
      else if asciiSpace c then trimStop s start (stop - 1) k'
      else (stop, false)
  end.

Definition TrimSpace (s : string) : string :=
  let '(start, slow) := trimStart s 0 in
  if slow
  then TrimFunc (substring (Z.to_nat start) (String.length s) s)
                unicode.IsSpace
  else
    let '(stop, slow') := trimStop s start (len s) (String.length s) in
    let mid := substring (Z.to_nat start) (Z.to_nat (stop - start)) s in
    if slow' then TrimRightFunc mid unicode.IsSpace else mid.

End strings.

(** ** Package [strconv] *)

Module strconv.

Inductive NumError : Type := ErrSyntax | ErrRange.

Definition isDigit (c : Z) : bool := (48 <=? c) && (c <=? 57).

Definition maxUint64 : Z := 2 ^ 64 - 1.

(** The digit loop of [ParseUint(s, 10, 64)] with accumulator [n]. *)
Fixpoint parseUintLoop (s : string) (n : Z) : Z * option NumError :=
  match s with
  | EmptyString => (n, None)
  | String a t =>
    let c := byte_of a in
    if negb (isDigit c) then (0, Some ErrSyntax)
    else if maxUint64 / 10 + 1 <=? n then (maxUint64, Some ErrRange)
    else
      let n10 := n * 10 in
      let n1 := (n10 + (c - 48)) mod 2 ^ 64 in
      if (n1 <? n10) || (maxUint64 <? n1) then (maxUint64, Some ErrRange)
      else parseUintLoop t n1
  end.

Definition ParseUint (s : string) : Z * option NumError :=
  match s with
  | EmptyString => (0, Some ErrSyntax)
  | _ => parseUintLoop s 0
  end.

(** [ParseInt(s, 10, 0)] on a 64-bit platform. *)
Definition ParseInt (s : string) : Z * option NumError :=
  match s with
  | EmptyString => (0, Some ErrSyntax)
  | String a t =>
    let neg := Ascii.eqb a "-" in
    let digits := if Ascii.eqb a "+" || neg then t else s in
    let '(un, err) := ParseUint digits in
    match err with
    | Some ErrSyntax => (0, err)
    | _ =>
      let cutoff := 2 ^ 63 in
      if negb neg && (cutoff <=? un) then (cutoff - 1, Some ErrRange)
      else if neg && (cutoff <? un) then (- cutoff, Some ErrRange)
      else (if neg then - un else un, None)
    end
  end.

(** The digit loop of the fast path of [Atoi]. *)
Fixpoint atoiLoop (s : string) (n : Z) : Z * option NumError :=
  match s with
  | EmptyString => (n, None)
  | String a t =>
    let ch := (byte_of a - 48) mod 256 in
    if 9 <? ch then (0, Some ErrSyntax)
    else atoiLoop t (n * 10 + ch)
  end.

Definition Atoi (s : string) : Z * option NumError :=
  if (0 <? len s) && (len s <? 19)
  then
    match s with
    | EmptyString => (0, Some ErrSyntax)
    | String a t =>
      let signed := Ascii.eqb a "-" || Ascii.eqb a "+" in
      let digits := if signed then t else s in
      if signed && (len digits <? 1) then (0, Some ErrSyntax)
      else
        match atoiLoop digits 0 with
        | (n, None) => (if Ascii.eqb a "-" then - n else n, None)
        | (_, e) => (0, e)
        end
    end
  else ParseInt s.

End strconv.

(** ** Package [fmt] *)

Module fmt.

(** The verb [%d] on an [int]. *)
Definition d (n : Z) : string := NilZero.string_of_int (Z.to_int n).

End fmt.

(** ** Package [gopkg.in/yaml.v3]: the node tree

    Of [yaml.Node] the program reads [Kind], [Style], [Value] and
    [Content].  [Style] is a bit set ([uint8]); the program compares it
    for equality with single flags.  The [Content] of a mapping node is
    the flat list key1, value1, key2, value2, ... *)

Module yaml.

(** The kinds of node that the parser produces. *)
Inductive Kind : Type :=
| DocumentNode | SequenceNode | MappingNode | ScalarNode | AliasNode.

Definition Style : Type := Z.
Definition TaggedStyle : Style := 1.
Definition DoubleQuotedStyle : Style := 2.
Definition SingleQuotedStyle : Style := 4.
Definition LiteralStyle : Style := 8.
Definition FoldedStyle : Style := 16.
Definition FlowStyle : Style := 32.

#[warnings="-register-all"] Inductive Node : Type :=
| mkNode (kind : Kind) (style : Style) (value : string) (content : list Node).

Definition Kind_eqb (a b : Kind) : bool :=
  match a, b with
  | DocumentNode, DocumentNode | SequenceNode, SequenceNode
  | MappingNode, MappingNode | ScalarNode, ScalarNode
  | AliasNode, AliasNode => true
  | _, _ => false
  end.

End yaml.

Abbreviation Node := yaml.Node.

Definition Kind (n : Node) : yaml.Kind :=
  match n with yaml.mkNode k _ _ _ => k end.
Definition Style (n : Node) : yaml.Style :=
  match n with yaml.mkNode _ s _ _ => s end.
Definition Value (n : Node) : string :=
  match n with yaml.mkNode _ _ v _ => v end.
Definition Content (n : Node) : list Node :=
  match n with yaml.mkNode _ _ _ c => c end.

(** Sequencing of calls that return [(T, error)] or panic. *)
Definition bind {A B : Type} (r : result A) (k : A -> result B) : result B :=
  match r with
  | Ok a => k a
  | Err e => Err e
  | Panicked p => Panicked p
  end.

Notation "x <- r ;; k" := (bind r (fun x => k))
  (at level 61, r at next level, right associativity).

(** ** The path resolver *)

(** The loop of [getMapValue] over [Content], two entries at a time; [n]
    is [len(node.Content)], reached by [Content[i+1]] when a key without
    a value matches. *)
Fixpoint lookupPairs (l : list Node) (key : string) (n : Z)
  : result (option Node) :=
  match l with
  | [] => Ok None
  | [k] =>
    if String.eqb (Value k) key then Panicked (IndexPanic n n) else Ok None
  | k :: v :: rest =>
    if String.eqb (Value k) key then Ok (Some v) else lookupPairs rest key n
  end.

(** [getMapValue]: [None] is the [nil] node. *)
Definition getMapValue (node : Node) (key : string) : result (option Node) :=
  if negb (yaml.Kind_eqb (Kind node) yaml.MappingNode) then Ok None
  else lookupPairs (Content node) key (Z.of_nat (List.length (Content node))).

(** The three [fmt.Errorf] messages of [findNodeByPath]. *)
Definition KeyNotFound (name : string) : string :=
  "key " ++ name ++ " not found".
Definition IndexOutOfRange (name : string) (idx : Z) : string :=
  "index [" ++ fmt.d idx ++ "] out of range for " ++ name.
Definition InvalidFormat (entrypoint : string) : string :=
  "invalid format: " ++ entrypoint.

(** The list-index branch of [findNodeByPath] once [name] and [index]
    are extracted: the child object, the range test and the move into
    the list element. *)
Definition descend (current : Node) (name : string) (idx : Z) : result Node :=
  child <- getMapValue current name ;;
  match child with
  | None => Err (KeyNotFound name)
  | Some child =>
    if negb (yaml.Kind_eqb (Kind child) yaml.SequenceNode)
       || (Z.of_nat (List.length (Content child)) <=? idx)
    then Err (IndexOutOfRange name idx)
    else index (Content child) idx
  end.

(** One iteration of the loop of [findNodeByPath] on segment [part]. *)
Definition findStep (current : Node) (part entrypoint : string) : result Node :=
  if strings.Contains part "["
  then
    name <- slice part 0 (strings.Index part "[") ;;
    indexString <- slice part (strings.Index part "[" + 1)
                               (strings.Index part "]") ;;
    let idx := fst (strconv.Atoi indexString) in
    descend current name idx
  else
    next <- getMapValue current part ;;
    match next with
    | None => Err (InvalidFormat entrypoint)
    | Some next => Ok next
    end.

Fixpoint findLoop (current : Node) (parts : list string) (entrypoint : string)
  : result Node :=
  match parts with
  | [] => Ok current
  | part :: rest =>
    next <- findStep current part entrypoint ;;
    findLoop next rest entrypoint
  end.

Definition findNodeByPath (node : Node) (entrypoint : string) : result Node :=
  findLoop node (strings.Split entrypoint ".") entrypoint.

(** ** The flattener *)

Definition isEmptyNode (node : Node) : bool :=
  match Kind node with
  | yaml.ScalarNode => String.eqb (strings.TrimSpace (Value node)) EmptyString
  | yaml.MappingNode | yaml.SequenceNode =>
    Nat.eqb (List.length (Content node)) 0
  | _ => false
  end.

(** What [walk] has written to [out], one entry for each [fmt.Fprintf]
    call in order, and the panic that stopped it, if any.  What was
    written before a panic stays written. *)
Definition writes : Type := list string * option panic.

Definition done : writes := ([], None).
Definition emit (s : string) : writes := ([s], None).
Definition crash (p : panic) : writes := ([], Some p).

Definition andThen (a b : writes) : writes :=
  match a with
  | (o, None) => ((o ++ fst b)%list, snd b)
  | (o, Some p) => (o, Some p)
  end.

Notation "a ;; b" := (andThen a b) (at level 62, right associativity).

Definition nl : string := String LF EmptyString.

(** [for i := 0; i < len(node.Content); i += 2] with [keyNode] and
    [valueNode]; [n] is [len(node.Content)]. *)
Definition forPairs (body : Node -> Node -> writes) (n : Z)
  : list Node -> writes :=
  fix loop (l : list Node) : writes :=
    match l with
    | [] => done
    | [_] => crash (IndexPanic n n)
    | k :: v :: rest => body k v ;; loop rest
    end.

(** [for i, item := range node.Content] *)
Definition forItems (body : Z -> Node -> writes)
  : list Node -> Z -> writes :=
  fix loop (l : list Node) (i : Z) : writes :=
    match l with
    | [] => done
    | item :: rest => body i item ;; loop rest (i + 1)
    end.

(** [p := make([]string, len(path)); copy(p, path);
     p[len(p)-1] += fmt.Sprintf("[%d]", i)] *)
Definition suffixLast (path : list string) (i : Z) : result (list string) :=
  match path with
  | [] => Panicked (IndexPanic (-1) 0)
  | _ =>
    Ok (removelast path
          ++ [(last path EmptyString ++ "[" ++ fmt.d i ++ "]")%string])%list
  end.

(** The loop over [lines] in the block-scalar branch; [n] is [len(lines)]. *)
Fixpoint writeLines (lines : list string) (i n : Z) : writes :=
  match lines with
  | [] => done
  | line :: rest =>
    (if (i =? n - 1) && String.eqb line EmptyString then done
     else emit ("  " ++ line ++ nl))
    ;; writeLines rest (i + 1) n
  end.

Definition nextRem (remain : Z) : Z :=
  if 0 <? remain then remain - 1 else remain.

Section Flatten.

(** The flags [--all] and [--symbol]. *)
Variable includeEmpty : bool.
Variable kvSeparator : string.

(** [strings.Join(path, ".")] followed by [kvSeparator]. *)
Definition lhs (path : list string) : string :=
  strings.Join path "." ++ kvSeparator.

Definition isBlock (node : Node) : bool :=
  yaml.Kind_eqb (Kind node) yaml.ScalarNode
  && (strings.Contains (Value node) LF
      || (Style node =? yaml.LiteralStyle)
      || (Style node =? yaml.FoldedStyle)).

Definition needsQuotes (val : string) : bool :=
  strings.ContainsAny val ":[]{},"
  || strings.HasPrefix val " " || strings.HasSuffix val " ".

Definition escaped (val : string) : string :=
  strings.ReplaceAll val dquote (String backslash (String dquote EmptyString)).

(** The [default] case of the switch in [walk]. *)
Definition walkLeaf (node : Node) (path : list string) : writes :=
  let val := Value node in
  if isBlock node
  then
    let lines := strings.Split val LF in
    emit (lhs path ++ "|-" ++ nl)
    ;; writeLines lines 0 (Z.of_nat (List.length lines))
  else if needsQuotes val
  then emit (lhs path ++ String dquote (escaped val) ++ String dquote nl)
  else emit (lhs path ++ val ++ nl).

(** [walk].  [append(path, keyNode.Value)] may write into the backing
    array of [path], but only the slot after its last element, which no
    slice but the one handed to the callee reaches; a new list models
    it. *)
Fixpoint walk (node : Node) (path : list string) (remain : Z) {struct node}
  : writes :=
  if negb includeEmpty && isEmptyNode node then done
  else
    match node with
    | yaml.mkNode yaml.MappingNode _ _ content =>
      if remain =? 0 then emit (lhs path ++ "<object>" ++ nl)
      else
        forPairs
          (fun keyNode valueNode =>
             walk valueNode (path ++ [Value keyNode])%list (nextRem remain))
          (Z.of_nat (List.length content)) content
    | yaml.mkNode yaml.SequenceNode _ _ content =>
      if remain =? 0 then emit (lhs path ++ "<array>" ++ nl)
      else
        forItems
          (fun i item =>
             match suffixLast path i with
             | Ok p => walk item p (nextRem remain)
             | Err _ => done
             | Panicked p => crash p
             end)
          content 0
    | _ => walkLeaf node path
    end.

End Flatten.

(** ** The program

    [main] from the check of [kvSeparator] on, for a run whose input file
    was read and whose output could be opened: [yamlRoot] is the document
    node that [yaml.Unmarshal] filled in.  The result is what was written
    to [out] and how the run ended. *)

Inductive ending : Type :=
| Returned                 (* the walk ran to its end *)
| Usage                    (* printUsage() *)
| Reported (err : string)  (* fmt.Println(err) *)
| Crashed (p : panic).

Definition finish (w : writes) : list string * ending :=
  match w with
  | (o, None) => (o, Returned)
  | (o, Some p) => (o, Crashed p)
  end.

Definition main (entry : string) (depth : Z) (includeEmpty : bool)
    (kvSeparator : string) (yamlRoot : Node) : list string * ending :=
  if negb (String.eqb kvSeparator ": ") && negb (String.eqb kvSeparator "=")
  then ([], Usage)
  else
    let entryPath :=
      if String.eqb entry EmptyString then [] else strings.Split entry "." in
    match index (Content yamlRoot) 0 with
    | Ok rootNode =>
      if String.eqb entry EmptyString
      then finish (walk includeEmpty kvSeparator rootNode entryPath depth)
      else
        match findNodeByPath rootNode entry with
        | Ok rootNode' =>
          finish (walk includeEmpty kvSeparator rootNode' entryPath depth)
        | Err err => ([], Reported err)
        | Panicked p => ([], Crashed p)
        end
    | Err err => ([], Reported err)
    | Panicked p => ([], Crashed p)
    end.

(** ** Building nodes *)

Definition scalar (style : yaml.Style) (value : string) : Node :=
  yaml.mkNode yaml.ScalarNode style value [].
Definition plain (value : string) : Node := scalar 0 value.
Definition mapping (content : list Node) : Node :=
  yaml.mkNode yaml.MappingNode 0 EmptyString content.
Definition sequence (content : list Node) : Node :=
  yaml.mkNode yaml.SequenceNode 0 EmptyString content.
Definition document (root : Node) : Node :=
  yaml.mkNode yaml.DocumentNode 0 EmptyString [root].

(** ** Notions used to state the properties *)

(** The switch of [walk], entered once the emptiness test has let the
    node through. *)
Definition walkSwitch (includeEmpty : bool) (kvSeparator : string)
    (node : Node) (path : list string) (remain : Z) : writes :=
  match Kind node with
  | yaml.MappingNode =>
    if remain =? 0 then emit (lhs kvSeparator path ++ "<object>" ++ nl)
    else
      forPairs
        (fun keyNode valueNode =>
           walk includeEmpty kvSeparator valueNode
                (path ++ [Value keyNode])%list (nextRem remain))
        (Z.of_nat (List.length (Content node))) (Content node)
  | yaml.SequenceNode =>
    if remain =? 0 then emit (lhs kvSeparator path ++ "<array>" ++ nl)
    else
      forItems
        (fun i item =>
           match suffixLast path i with
           | Ok p => walk includeEmpty kvSeparator item p (nextRem remain)
           | Err _ => done
           | Panicked p => crash p
           end)
        (Content node) 0
  | _ => walkLeaf kvSeparator node path
  end.

(** The node is let through by [!includeEmpty && isEmptyNode(node)]. *)
Definition kept (includeEmpty : bool) (node : Node) : bool :=
  negb (negb includeEmpty && isEmptyNode node).

(** Keys of a mapping's [Content]: the [Value] of the entries at even
    positions. *)
Fixpoint keys (l : list Node) : list string :=
  match l with
  | [] => []
  | [k] => [Value k]
  | k :: _ :: rest => Value k :: keys rest
  end.

(** Value nodes of a mapping's [Content]: the entries at odd positions. *)
Fixpoint values (l : list Node) : list Node :=
  match l with
  | _ :: v :: rest => v :: values rest
  | _ => []
  end.

(** The nodes [walk] descends into from [node]. *)
Definition children (node : Node) : list Node :=
  match Kind node with
  | yaml.MappingNode => values (Content node)
  | yaml.SequenceNode => Content node
  | _ => []
  end.

(** A node that is classified empty, or a mapping or sequence all of
    whose children are in turn such nodes: the nested combinations of
    empty mappings, empty sequences and blank scalars. *)
Fixpoint barren (node : Node) : bool :=
  isEmptyNode node
  || match node with
     | yaml.mkNode yaml.MappingNode _ _ content =>
       (fix vals (l : list Node) : bool :=
          match l with
          | _ :: v :: rest => barren v && vals rest
          | _ => true
          end) content
     | yaml.mkNode yaml.SequenceNode _ _ content =>
       (fix items (l : list Node) : bool :=
          match l with
          | [] => true
          | item :: rest => barren item && items rest
          end) content
     | _ => false
     end.

(** Number of levels of the tree under [node], [1] for a leaf. *)
Fixpoint height (node : Node) : Z :=
  match node with
  | yaml.mkNode _ _ _ content =>
    1 + (fix most (l : list Node) : Z :=
           match l with
           | [] => 0
           | n :: rest => Z.max (height n) (most rest)
           end) content
  end.

(** The greatest height among the nodes of a list, [0] for none. *)
Definition tallest (l : list Node) : Z :=
  fold_right (fun n m => Z.max (height n) m) 0 l.

(** A line of a block scalar under its header. *)
Definition indented (line : string) : string := "  " ++ line ++ nl.

(** The lines of a block scalar: the value split at line feeds, without
    the empty string that a final line feed leaves at the end. *)
Definition blockLines (val : string) : list string :=
  let lines := strings.Split val LF in
  if String.eqb (last lines EmptyString) EmptyString
  then removelast lines else lines.

(** [strings.LastIndex(s, sub)] *)
Fixpoint LastIndex (s sub : string) : Z :=
  match s with
  | EmptyString => if String.eqb sub EmptyString then 0 else -1
  | String _ t =>
    let i := LastIndex t sub in
    if 0 <=? i then i + 1 else if String.prefix sub s then 0 else -1
  end.

(** [strings.Index(s, sub)] for a substring of any length. *)
Fixpoint FirstIndex (s sub : string) : Z :=
  match s with
  | EmptyString => if String.eqb sub EmptyString then 0 else -1
  | String _ t =>
    if String.prefix sub s then 0
    else let i := FirstIndex t sub in if i <? 0 then -1 else i + 1
  end.

(** Reading a line back: what follows the separator found at offset
    [i], nothing when it was not found. *)
Definition after (line sep : string) (i : Z) : option string :=
  if i <? 0 then None
  else Some (substring (Z.to_nat i + String.length sep)
                       (String.length line) line).

(** The line split at the first, and at the last, occurrence of the
    separator. *)
Definition valueAfterFirst (line sep : string) : option string :=
  after line sep (FirstIndex line sep).
Definition valueAfterLast (line sep : string) : option string :=
  after line sep (LastIndex line sep).

(** A byte does not occur in a string. *)
Definition lacks (s : string) (c : ascii) : Prop := strings.Index s c = -1.

(** The segment [name[istr]rest] of a path expression. *)
Definition indexed (name istr rest : string) : string :=
  name ++ String "[" (istr ++ String "]" rest).

(** The separators that [main] lets through. *)
Definition validSeparator (sep : string) : Prop := sep = ": " \/ sep = "=".

(** ** The documents of the scenarios *)

Definition alertmanager : Node :=
  mapping
    [ plain "alertmanager";
      mapping
        [ plain "enabled"; plain "false";
          plain "namespaceOverride"; scalar yaml.DoubleQuotedStyle EmptyString;
          plain "annotations"; mapping [ plain "snooze"; plain "true" ];
          plain "apiVersion"; scalar yaml.DoubleQuotedStyle "v2" ] ].

Definition pod : Node :=
  mapping
    [ plain "containers";
      sequence
        [ mapping [ plain "name"; plain "web" ];
          mapping [ plain "name"; plain "db" ];
          mapping [ plain "name"; plain "cache" ] ] ].

(** ** Notions used for the further properties *)

(** Every mapping of the tree has its keys and values in pairs, as the
    parser builds them. *)
Fixpoint wellFormed (node : Node) : bool :=
  match node with
  | yaml.mkNode kind _ _ content =>
    (if yaml.Kind_eqb kind yaml.MappingNode
     then Nat.even (List.length content) else true)
    && forallb wellFormed content
  end.

(** [a] is [b] with some entries left out, the others in their order. *)
Inductive sublist {A : Type} : list A -> list A -> Prop :=
| sub_nil : sublist [] []
| sub_skip (x : A) (a b : list A) : sublist a b -> sublist a (x :: b)
| sub_keep (x : A) (a b : list A) : sublist a b -> sublist (x :: a) (x :: b).

(** Reading an escaped value back: a backslash before a double quote is
    dropped. *)
Fixpoint unescape (s : string) : string :=
  match s with
  | EmptyString => EmptyString
  | String a t =>
    match t with
    | String b t' =>
      if Ascii.eqb a backslash && Ascii.eqb b dquote
      then String dquote (unescape t')
      else String a (unescape t)
    | EmptyString => String a EmptyString
    end
  end.

(** All bytes of the string are ASCII white space; all are ASCII. *)
Fixpoint allSpace (s : string) : bool :=
  match s with
  | EmptyString => true
  | String a t => strings.asciiSpace (byte_of a) && allSpace t
  end.

Fixpoint allASCII (s : string) : bool :=
  match s with
  | EmptyString => true
  | String a t => (byte_of a <? utf8.RuneSelf) && allASCII t
  end.


(** [within root n]: [n] is [root] or lies in the [Content] of a node
    that is within [root]. *)
Inductive within (root : Node) : Node -> Prop :=
| within_self : within root root
| within_child (parent n : Node) :
    within root parent -> In n (Content parent) -> within root n.

(** Two results of [walk] that end alike, the first with some of the
    writes of the second left out. *)
Definition fewerWrites (a b : writes) : Prop :=
  sublist (fst a) (fst b) /\ snd a = snd b.

(** ** Notions for the quoting of single-line values

    The test and the escaping in the words of the specification, to be
    compared with [needsQuotes] and [escaped] of the program. *)

(** The characters [:[]{},]. *)
Definition specialChars : list ascii := list_ascii_of_string ":[]{},".

(** The value contains one of the special characters, or has a leading
    or a trailing space. *)
Definition mustQuote (val : string) : Prop :=
  (exists c, In c specialChars /\ ~ lacks val c)
  \/ (exists t, val = String " " t)
  \/ (exists t, val = t ++ " ").

(** Every double quote gets a backslash before it; all other bytes are
    kept. *)
Fixpoint escapeQuotes (val : string) : string :=
  match val with
  | EmptyString => EmptyString
  | String c t =>
    if Ascii.eqb c dquote
    then String backslash (String dquote (escapeQuotes t))
    else String c (escapeQuotes t)
  end.

(** ** Notions for the depth of a printed line *)

(** Number of occurrences of a byte. *)
Fixpoint count (s : string) (c : ascii) : Z :=
  match s with
  | EmptyString => 0
  | String a t => (if Ascii.eqb a c then 1 else 0) + count t c
  end.

(** The dots and opening brackets of a printed path: one for each
    segment after the first and one for each index. *)
Definition segments (s : string) : Z := count s "." + count s "[".

(** The path of a printed line: the text before the first occurrence
    of the separator. *)
Definition pathOf (line sep : string) : string :=
  let i := FirstIndex line sep in
  if i <? 0 then line else substring 0 (Z.to_nat i) line.

(** The first byte of the separator. *)
Definition sepByte (sep : string) : ascii :=
  match sep with
  | String c _ => c
  | EmptyString => Ascii.zero
  end.

(** A key that holds no dot, no opening bracket and not the first byte
    of the separator. *)
Definition plainKey (sep key : string) : bool :=
  (strings.Index key "." <? 0) && (strings.Index key "[" <? 0)
  && (strings.Index key (sepByte sep) <? 0).

Definition allPairs (body : Node -> Node -> bool) : list Node -> bool :=
  fix loop (l : list Node) : bool :=
    match l with
    | k :: v :: rest => body k v && loop rest
    | _ => true
    end.

(** Every key of every mapping that the walk can reach satisfies [P]. *)
Fixpoint allKeys (P : string -> bool) (node : Node) : bool :=
  match node with
  | yaml.mkNode yaml.MappingNode _ _ content =>
    allPairs (fun k v => P (Value k) && allKeys P v) content
  | yaml.mkNode yaml.SequenceNode _ _ content => forallb (allKeys P) content
  | _ => true
  end.

(** ** The complete flattening, without a budget

    The flattening in the words of the specification for a budget that
    never runs out: a node classified empty gives nothing unless empty
    values are included; a mapping gives the lines of its values, each
    under the prefix extended by its key; a sequence gives the lines of
    its elements, each under the prefix whose last segment has the
    index attached; a leaf gives its lines as [walkLeaf] writes them. *)

Definition eachPair (body : Node -> Node -> list string)
  : list Node -> list string :=
  fix loop (l : list Node) : list string :=
    match l with
    | k :: v :: rest => (body k v ++ loop rest)%list
    | _ => []
    end.

Definition eachItem (body : Z -> Node -> list string)
  : list Node -> Z -> list string :=
  fix loop (l : list Node) (i : Z) : list string :=
    match l with
    | [] => []
    | item :: rest => (body i item ++ loop rest (i + 1))%list
    end.

Definition attach (path : list string) (i : Z) : list string :=
  (removelast path
     ++ [(last path EmptyString ++ "[" ++ fmt.d i ++ "]")%string])%list.

Fixpoint flattenAll (includeEmpty : bool) (sep : string) (node : Node)
    (path : list string) {struct node} : list string :=
  if negb includeEmpty && isEmptyNode node then []
  else
    match node with
    | yaml.mkNode yaml.MappingNode _ _ content =>
      eachPair
        (fun k v => flattenAll includeEmpty sep v (path ++ [Value k])%list)
        content
    | yaml.mkNode yaml.SequenceNode _ _ content =>
      eachItem
        (fun i item => flattenAll includeEmpty sep item (attach path i))
        content 0
    | _ => fst (walkLeaf sep node path)
    end.

(** ** The flattening cut at a depth

    The contract of the flattening for a budget that is not negative,
    in the words of the specification.  The budget is the number of
    descents left: a mapping or a sequence met with none left gives one
    placeholder line and is not descended into; met with some left, each
    of its values or elements is flattened with one descent fewer. *)

Fixpoint flattenTo (includeEmpty : bool) (sep : string) (budget : nat)
    (node : Node) (path : list string) {struct node} : list string :=
  if negb includeEmpty && isEmptyNode node then []
  else
    match node with
    | yaml.mkNode yaml.MappingNode _ _ content =>
      match budget with
      | O => [lhs sep path ++ "<object>" ++ nl]
      | S less =>
        eachPair
          (fun k v => flattenTo includeEmpty sep less v (path ++ [Value k])%list)
          content
      end
    | yaml.mkNode yaml.SequenceNode _ _ content =>
      match budget with
      | O => [lhs sep path ++ "<array>" ++ nl]
      | S less =>
        eachItem
          (fun i item => flattenTo includeEmpty sep less item (attach path i))
          content 0
      end
    | _ => fst (walkLeaf sep node path)
    end.

(** ** Induction on nodes through their [Content] *)

Fixpoint Node_forall_ind (P : Node -> Prop)
    (step : forall k s v c, Forall P c -> P (yaml.mkNode k s v c))
    (n : Node) {struct n} : P n :=
  match n with
  | yaml.mkNode k s v c =>
    step k s v c
      ((fix all (l : list Node) : Forall P l :=
          match l with
          | [] => Forall_nil P
          | x :: r => Forall_cons x (Node_forall_ind P step x) (all r)
          end) c)
  end.

(** * Properties *)

(** ** Unfolding [walk] and sequencing writes *)

Lemma walk_unfold (ie : bool) (sep : string) (node : Node)
    (path : list string) (remain : Z) :
  walk ie sep node path remain =
  if negb ie && isEmptyNode node then done
  else walkSwitch ie sep node path remain.
Proof.
  destruct node as [k s v c]; destruct k; reflexivity.
Qed.

Lemma walk_kept (ie : bool) (sep : string) (node : Node)
    (path : list string) (remain : Z) :
  kept ie node = true ->
  walk ie sep node path remain = walkSwitch ie sep node path remain.
Proof.
  unfold kept; intros Hk; rewrite walk_unfold.
  destruct (negb ie && isEmptyNode node); [discriminate | reflexivity].
Qed.

Lemma walk_skipped (ie : bool) (sep : string) (node : Node)
    (path : list string) (remain : Z) :
  kept ie node = false -> walk ie sep node path remain = done.
Proof.
  unfold kept; intros Hk; rewrite walk_unfold.
  destruct (negb ie && isEmptyNode node); [reflexivity | discriminate].
Qed.

Lemma done_andThen (b : writes) : (done ;; b) = b.
Proof. destruct b; reflexivity. Qed.

Lemma fst_andThen_nil (a b : writes) :
  fst a = [] -> fst b = [] -> fst (a ;; b) = [].
Proof.
  destruct a as [oa [pa |]], b as [ob pb]; simpl; intros -> ->; reflexivity.
Qed.

Lemma in_fst_andThen (w : string) (a b : writes) :
  In w (fst (a ;; b)) -> In w (fst a) \/ In w (fst b).
Proof.
  destruct a as [oa [pa |]], b as [ob pb]; simpl; intros H; auto.
  apply in_app_or in H; exact H.
Qed.

Lemma kept_mapping_nonempty (ie : bool) (node : Node) :
  Kind node = yaml.MappingNode ->
  kept ie node = true <-> ie = true \/ Content node <> [].
Proof.
  intros HK; unfold kept, isEmptyNode; rewrite HK.
  destruct ie; simpl.
  - split; auto.
  - destruct (Content node); simpl; split; intros H.
    + discriminate.
    + destruct H as [H | H]; [discriminate | contradiction].
    + right; discriminate.
    + reflexivity.
Qed.

Lemma kept_sequence_nonempty (ie : bool) (node : Node) :
  Kind node = yaml.SequenceNode ->
  Content node <> [] -> kept ie node = true.
Proof.
  intros HK Hc; unfold kept, isEmptyNode; rewrite HK.
  destruct (Content node); [contradiction |].
  destruct ie; reflexivity.
Qed.

(** ** Depth budget 0 on a mapping (C2) *)

(** C2, as stated, fails: with [includeEmpty = false] a mapping without
    entries is dropped by the emptiness test before the budget is looked
    at, and no line is written. *)
Lemma C2_empty_mapping_writes_nothing :
  Kind (mapping []) = yaml.MappingNode
  /\ walk false ": " (mapping []) ["a"] 0 = ([], None)
  /\ walk false ": " (mapping []) ["a"] 0
     <> ([lhs ": " ["a"] ++ "<object>" ++ nl], None).
Proof.
  repeat split; discriminate.
Qed.

(** C2, amended: a mapping node that the emptiness test lets through
    ([includeEmpty] set, or at least one entry in its [Content]) and that
    is walked with budget [0] writes the single line
    [<joined prefix><separator><object>] and nothing else, whatever its
    entries are, for every prefix and separator. *)
Theorem C2_budget_zero_mapping (ie : bool) (sep : string) (node : Node)
    (path : list string) :
  Kind node = yaml.MappingNode ->
  ie = true \/ Content node <> [] ->
  walk ie sep node path 0
  = ([lhs sep path ++ "<object>" ++ nl], None).
Proof.
  intros HK Hkept.
  rewrite walk_kept by (apply kept_mapping_nonempty; assumption).
  unfold walkSwitch; rewrite HK; reflexivity.
Qed.

Lemma C2_budget_zero_mapping_witness :
  walk false "=" alertmanager ["values"] 0
  = (["values=<object>" ++ nl], None).
Proof.
  apply (C2_budget_zero_mapping false "=" alertmanager ["values"]).
  - reflexivity.
  - right; discriminate.
Defined.

(** ** A sequence at the root with the empty prefix (C4) *)

Lemma suffixLast_nil (i : Z) : suffixLast [] i = Panicked (IndexPanic (-1) 0).
Proof. reflexivity. Qed.

(** C4, as stated, fails: with [includeEmpty = true] the emptiness test
    is not applied, so a root sequence without elements is not skipped by
    it; the loop over its elements then has nothing to do and the run
    ends without a panic (and without a line). *)
Lemma C4_empty_root_sequence_returns :
  Kind (sequence []) = yaml.SequenceNode
  /\ kept true (sequence []) = true
  /\ walk true ": " (sequence []) [] (-1) = ([], None)
  /\ main EmptyString (-1) true ": " (document (sequence []))
     = ([], Returned).
Proof.
  repeat split.
Qed.

(** C4, amended: descending into an element of a sequence attaches
    [[i]] to the last segment of a copy of the prefix, which panics on
    the empty prefix; hence flattening a root sequence that has at least
    one element, with no entry path and a budget other than [0], panics
    with index out of range [-1] before any line is written. *)
Theorem C4_root_sequence_panics (ie : bool) (sep : string) (node : Node)
    (remain : Z) :
  Kind node = yaml.SequenceNode ->
  Content node <> [] ->
  remain <> 0 ->
  (forall i, suffixLast [] i = Panicked (IndexPanic (-1) 0))
  /\ walk ie sep node [] remain = ([], Some (IndexPanic (-1) 0))
  /\ (validSeparator sep ->
      main EmptyString remain ie sep (document node)
      = ([], Crashed (IndexPanic (-1) 0))).
Proof.
  intros HK Hc Hr.
  assert (Hw : walk ie sep node [] remain = ([], Some (IndexPanic (-1) 0))).
  { rewrite walk_kept by (apply kept_sequence_nonempty; assumption).
    unfold walkSwitch; rewrite HK.
    destruct (Z.eqb_spec remain 0) as [E | _]; [contradiction |].
    destruct (Content node) as [| item rest]; [contradiction |].
    reflexivity. }
  split; [exact suffixLast_nil |].
  split; [exact Hw |].
  intros Hsep; unfold main.
  replace (negb (sep =? ": ")%string && negb (sep =? "=")%string) with false
    by (destruct Hsep; subst sep; reflexivity).
  simpl; rewrite Hw; reflexivity.
Qed.

Lemma C4_root_sequence_panics_witness :
  walk false ": " (sequence [plain "a"; plain "b"]) [] (-1)
  = ([], Some (IndexPanic (-1) 0)).
Proof.
  apply (C4_root_sequence_panics false ": "
           (sequence [plain "a"; plain "b"]) (-1)).
  - reflexivity.
  - discriminate.
  - lia.
Defined.

(** ** The alertmanager scenario (C6) *)

(** C6: resolving the entry path [alertmanager] in the scenario's tree
    and flattening the node found, with unlimited depth, without empty
    values and with separator [": "], writes the three lines for
    [enabled], [annotations.snooze] and [apiVersion] in this order, and
    ends normally; the node of [namespaceOverride] is classified empty. *)
Theorem C6_alertmanager_scenario :
  main "alertmanager" (-1) false ": " (document alertmanager)
  = ([ "alertmanager.enabled: false" ++ nl;
       "alertmanager.annotations.snooze: true" ++ nl;
       "alertmanager.apiVersion: v2" ++ nl ], Returned)
  /\ (exists found,
        findNodeByPath alertmanager "alertmanager" = Ok found
        /\ fst (walk false ": " found ["alertmanager"] (-1))
           = [ "alertmanager.enabled: false" ++ nl;
               "alertmanager.annotations.snooze: true" ++ nl;
               "alertmanager.apiVersion: v2" ++ nl ]
        /\ getMapValue found "namespaceOverride"
           = Ok (Some (scalar yaml.DoubleQuotedStyle EmptyString)))
  /\ isEmptyNode (scalar yaml.DoubleQuotedStyle EmptyString) = true.
Proof.
  split; [vm_compute; reflexivity |].
  split; [| vm_compute; reflexivity].
  eexists; split; [vm_compute; reflexivity |].
  split; vm_compute; reflexivity.
Qed.

(** ** Facts about strings and slices *)

Lemma append_assoc (a b c : string) : (a ++ b) ++ c = a ++ b ++ c.
Proof. induction a as [| x a IH]; simpl; [| rewrite IH]; reflexivity. Qed.

Lemma append_nil_r (a : string) : a ++ EmptyString = a.
Proof. induction a as [| x a IH]; simpl; [| rewrite IH]; reflexivity. Qed.

Lemma len_cons (x : ascii) (s : string) : len (String x s) = len s + 1.
Proof. unfold len; simpl String.length; lia. Qed.

Lemma len_nonneg (s : string) : 0 <= len s.
Proof. unfold len; lia. Qed.

Lemma len_append (a b : string) : len (a ++ b) = len a + len b.
Proof.
  induction a as [| x a IH]; [reflexivity |].
  simpl append; rewrite !len_cons, IH; lia.
Qed.

Lemma substring_all (a b : string) :
  substring 0 (String.length a) (a ++ b) = a.
Proof. induction a as [| x a IH]; simpl; [destruct b | rewrite IH]; reflexivity. Qed.

Lemma substring_skip (a b : string) (m : nat) :
  substring (String.length a) m (a ++ b) = substring 0 m b.
Proof. induction a as [| x a IH]; simpl; [| rewrite IH]; reflexivity. Qed.

Lemma Index_range (s : string) (c : ascii) :
  strings.Index s c = -1 \/ 0 <= strings.Index s c < len s.
Proof.
  induction s as [| x s IH]; [left; reflexivity |].
  simpl strings.Index; rewrite len_cons.
  destruct (Ascii.eqb x c); [right; pose proof (len_nonneg s); lia |].
  destruct IH as [E | R].
  - rewrite E; left; reflexivity.
  - destruct (Z.ltb_spec (strings.Index s c) 0); [lia | right; lia].
Qed.

Lemma lacks_cons (x c : ascii) (s : string) :
  lacks (String x s) c <-> Ascii.eqb x c = false /\ lacks s c.
Proof.
  unfold lacks; simpl strings.Index.
  destruct (Ascii.eqb x c).
  - split; [discriminate | intros [H _]; discriminate].
  - destruct (Index_range s c) as [E | R].
    + rewrite E; simpl; tauto.
    + destruct (Z.ltb_spec (strings.Index s c) 0) as [Hlt | Hge]; [lia |].
      split; [lia | intros [_ Hs]; lia].
Qed.

Lemma Index_at (a b : string) (c : ascii) :
  lacks a c -> strings.Index (a ++ String c b) c = len a.
Proof.
  induction a as [| x a IH]; intros H.
  - simpl; rewrite Ascii.eqb_refl; reflexivity.
  - apply lacks_cons in H; destruct H as [Hx Ha].
    simpl append; simpl strings.Index; rewrite Hx, (IH Ha), len_cons.
    pose proof (len_nonneg a).
    destruct (Z.ltb_spec (len a) 0); [lia | reflexivity].
Qed.

Lemma lacks_append (a b : string) (c : ascii) :
  lacks a c -> lacks b c -> lacks (a ++ b) c.
Proof.
  induction a as [| x a IH]; intros Ha Hb; [exact Hb |].
  apply lacks_cons in Ha; destruct Ha as [Hx Ha].
  simpl append; apply lacks_cons; split; [exact Hx | exact (IH Ha Hb)].
Qed.

Lemma Contains_at (a b : string) (c : ascii) :
  strings.Contains (a ++ String c b) c = true.
Proof.
  unfold strings.Contains.
  induction a as [| x a IH]; simpl.
  - rewrite Ascii.eqb_refl; reflexivity.
  - destruct (Ascii.eqb x c); [reflexivity |].
    apply Z.leb_le in IH.
    destruct (Z.ltb_spec (strings.Index (a ++ String c b) c) 0);
      [lia | apply Z.leb_le; lia].
Qed.

Lemma slice_head (a b : string) : slice (a ++ b) 0 (len a) = Ok a.
Proof.
  unfold slice; rewrite len_append.
  pose proof (len_nonneg a); pose proof (len_nonneg b).
  replace ((0 <=? 0) && (0 <=? len a) && (len a <=? len a + len b)) with true
    by (symmetry; rewrite !andb_true_iff, !Z.leb_le; lia).
  rewrite Z.sub_0_r; unfold len; rewrite Nat2Z.id; simpl Z.to_nat.
  rewrite substring_all; reflexivity.
Qed.

Lemma slice_middle (a b c : string) :
  slice (a ++ b ++ c) (len a) (len a + len b) = Ok b.
Proof.
  unfold slice; rewrite !len_append.
  pose proof (len_nonneg a); pose proof (len_nonneg b);
    pose proof (len_nonneg c).
  replace ((0 <=? len a) && (len a <=? len a + len b)
           && (len a + len b <=? len a + (len b + len c))) with true
    by (symmetry; rewrite !andb_true_iff, !Z.leb_le; lia).
  replace (len a + len b - len a) with (len b) by lia.
  unfold len; rewrite !Nat2Z.id, substring_skip, substring_all; reflexivity.
Qed.

(** ** Facts about [getMapValue] *)

Lemma lookupPairs_absent (l : list Node) (key : string) (n : Z) :
  ~ In key (keys l) -> lookupPairs l key n = Ok None.
Proof.
  revert l.
  fix IH 1; intros [| k [| v rest]] H.
  - reflexivity.
  - simpl in *. destruct (String.eqb_spec (Value k) key); [tauto | reflexivity].
  - simpl in *. destruct (String.eqb_spec (Value k) key); [tauto |].
    apply IH; tauto.
Qed.

Lemma getMapValue_absent (node : Node) (key : string) :
  Kind node <> yaml.MappingNode \/ ~ In key (keys (Content node)) ->
  getMapValue node key = Ok None.
Proof.
  unfold getMapValue; intros [HK | Hin].
  - destruct (Kind node); try reflexivity; contradiction.
  - destruct (negb _); [reflexivity | apply lookupPairs_absent; exact Hin].
Qed.

(** Lookup returns the value of the first entry whose key matches. *)
Lemma lookupPairs_first_match (pre rest : list Node) (k v : Node) (n : Z) :
  Nat.Even (List.length pre) ->
  ~ In (Value k) (keys pre) ->
  lookupPairs (pre ++ k :: v :: rest) (Value k) n = Ok (Some v).
Proof.
  revert pre.
  fix IH 1; intros [| k0 [| v0 pre]] Hev Hin.
  - simpl; rewrite String.eqb_refl; reflexivity.
  - destruct Hev as [m Hm]; simpl in Hm; lia.
  - simpl in *. destruct (String.eqb_spec (Value k0) (Value k)); [tauto |].
    apply IH; [| tauto].
    destruct Hev as [m Hm]; exists (m - 1)%nat; lia.
Qed.

Lemma getMapValue_no_error (node : Node) (key e : string) :
  getMapValue node key <> Err e.
Proof.
  unfold getMapValue; destruct (negb _); [discriminate |].
  generalize (Z.of_nat (List.length (Content node))) as n.
  generalize (Content node) as l.
  fix IH 1; intros [| k [| v rest]] n; simpl.
  - discriminate.
  - destruct (String.eqb _ _); discriminate.
  - destruct (String.eqb _ _); [discriminate | apply IH].
Qed.

(** ** Indexed segments *)

Lemma main_separator_ok (sep : string) :
  validSeparator sep ->
  negb (String.eqb sep ": ") && negb (String.eqb sep "=") = false.
Proof. intros [E | E]; subst sep; reflexivity. Qed.

(** A segment [name[istr]...] whose name has no bracket and whose index
    text has no closing bracket is read as the key [name] and the index
    that [Atoi] makes of [istr]. *)
Lemma findStep_indexed (current : Node) (name istr rest entry : string) :
  lacks name "[" -> lacks name "]" -> lacks istr "]" ->
  findStep current (indexed name istr rest) entry
  = descend current name (fst (strconv.Atoi istr)).
Proof.
  intros Hn1 Hn2 Hi; unfold findStep, indexed.
  rewrite Contains_at, (Index_at _ _ _ Hn1), slice_head; simpl bind.
  assert (Hpre : lacks (name ++ String "[" istr) "]").
  { apply lacks_append; [exact Hn2 |].
    apply lacks_cons; split; [reflexivity | exact Hi]. }
  replace (name ++ String "[" (istr ++ String "]" rest))
    with ((name ++ String "[" istr) ++ String "]" rest)
    by (rewrite append_assoc; reflexivity).
  rewrite (Index_at _ _ _ Hpre), len_append, len_cons.
  replace ((name ++ String "[" istr) ++ String "]" rest)
    with ((name ++ "[") ++ istr ++ String "]" rest)
    by (rewrite !append_assoc; reflexivity).
  replace (len name + 1) with (len (name ++ "["))
    by (rewrite len_append; reflexivity).
  replace (len name + (len istr + 1)) with (len (name ++ "[") + len istr)
    by (rewrite len_append; change (len "[") with 1; lia).
  rewrite slice_middle; reflexivity.
Qed.


(** Index at or beyond the length, or a child that is no sequence: the
    error of the range test. *)
Lemma descend_too_large (current child : Node) (name : string) (idx : Z) :
  getMapValue current name = Ok (Some child) ->
  Kind child <> yaml.SequenceNode
  \/ Z.of_nat (List.length (Content child)) <= idx ->
  descend current name idx = Err (IndexOutOfRange name idx).
Proof.
  intros Hg Hc; unfold descend; rewrite Hg; simpl bind.
  destruct Hc as [HK | Hl].
  - replace (yaml.Kind_eqb (Kind child) yaml.SequenceNode) with false
      by (destruct (Kind child); try reflexivity; contradiction).
    reflexivity.
  - apply Z.leb_le in Hl; rewrite Hl, orb_true_r; reflexivity.
Qed.

(** Negative index: the range test has no lower bound and the element
    access panics. *)
Lemma descend_negative (current child : Node) (name : string) (idx : Z) :
  getMapValue current name = Ok (Some child) ->
  Kind child = yaml.SequenceNode ->
  idx < 0 ->
  descend current name idx
  = Panicked (IndexPanic idx (Z.of_nat (List.length (Content child)))).
Proof.
  intros Hg HK Hneg; unfold descend; rewrite Hg; simpl bind; rewrite HK.
  destruct (Z.leb_spec (Z.of_nat (List.length (Content child))) idx); [lia |].
  simpl; unfold index.
  destruct (Z.leb_spec 0 idx); [lia | reflexivity].
Qed.

(** The spec's scenario of an index beyond the end. *)
Lemma pod_index_five :
  findNodeByPath pod "containers[5].name"
  = Err (IndexOutOfRange "containers" 5)
  /\ IndexOutOfRange "containers" 5 = "index [5] out of range for containers"
  /\ findNodeByPath pod "containers[1].name" = Ok (plain "db").
Proof. repeat split. Qed.

(** C1: the range test of an indexed segment is [index >= len] alone, so
    a negative index gets past it and the access to the element panics.
    On the three-element sequence [containers] the expression
    [containers[-1]] ends in the panic index out of range [-1], not in
    the error [IndexOutOfRange("containers", -1)]. *)
Theorem C1_negative_index_panics :
  strconv.Atoi "-1" = (-1, None)
  /\ findNodeByPath pod "containers[-1]" = Panicked (IndexPanic (-1) 3)
  /\ findNodeByPath pod "containers[-1]"
     <> Err (IndexOutOfRange "containers" (-1))
  /\ main "containers[-1]" (-1) false ": " (document pod)
     = ([], Crashed (IndexPanic (-1) 3)).
Proof.
  repeat split; discriminate.
Qed.

(** ** Malformed index syntax (C3) *)

(** Whatever [Atoi] rejects as not being a number, it reads as [0]. *)
Lemma Atoi_syntax_zero (s : string) :
  snd (strconv.Atoi s) = Some strconv.ErrSyntax -> fst (strconv.Atoi s) = 0.
Proof.
  unfold strconv.Atoi.
  destruct ((0 <? len s) && (len s <? 19)).
  - destruct s as [| a t]; [reflexivity |].
    destruct (_ && _); [reflexivity |].
    destruct (strconv.atoiLoop _ 0) as [n [e |]]; simpl; [reflexivity | discriminate].
  - unfold strconv.ParseInt.
    destruct s as [| a t]; [reflexivity |].
    destruct (strconv.ParseUint _) as [un [[|] |]]; simpl; try reflexivity;
      repeat match goal with
             | |- context [if ?c then _ else _] => destruct c
             end; simpl; intros H; try discriminate; reflexivity.
Qed.

(** A non-integer between matched brackets: the segment is resolved as
    [name[0]]. *)
Lemma findStep_unparsable_index (current : Node) (name istr rest entry : string) :
  lacks name "[" -> lacks name "]" -> lacks istr "]" ->
  snd (strconv.Atoi istr) = Some strconv.ErrSyntax ->
  findStep current (indexed name istr rest) entry
  = findStep current (indexed name "0" EmptyString) entry.
Proof.
  intros Hn1 Hn2 Hi Hs.
  rewrite !findStep_indexed by (assumption || reflexivity).
  rewrite (Atoi_syntax_zero _ Hs); reflexivity.
Qed.

(** Digits that overflow [int] are not read as [0]: [Atoi] gives up with
    a range error at the digit that overflows, before it looks at what
    follows, and answers the largest [int]. *)
Lemma overlong_index_is_clamped :
  strconv.Atoi "99999999999999999999x"
  = (9223372036854775807, Some strconv.ErrRange)
  /\ findNodeByPath pod "containers[99999999999999999999x]"
     = Err (IndexOutOfRange "containers" 9223372036854775807).
Proof. split; vm_compute; reflexivity. Qed.

(** An opening bracket without a closing one: [strings.Index] answers
    [-1] for the missing bracket and the slice expression panics. *)
Lemma findStep_unclosed_bracket (current : Node) (part entry : string) :
  strings.Contains part "[" = true -> lacks part "]" ->
  findStep current part entry
  = Panicked (SlicePanic (strings.Index part "[" + 1) (-1) (len part)).
Proof.
  intros Hc Hl; unfold findStep; rewrite Hc, Hl.
  unfold strings.Contains in Hc; apply Z.leb_le in Hc.
  destruct (Index_range part "[") as [E | R]; [lia |].
  unfold slice at 1.
  replace ((0 <=? 0) && (0 <=? strings.Index part "[")
           && (strings.Index part "[" <=? len part)) with true
    by (symmetry; rewrite !andb_true_iff, !Z.leb_le; lia).
  simpl bind; unfold slice.
  replace ((0 <=? strings.Index part "[" + 1)
           && (strings.Index part "[" + 1 <=? -1)) with false
    by (symmetry; rewrite andb_false_iff, !Z.leb_gt; lia).
  reflexivity.
Qed.

(** C3: a non-integer between the brackets is read as index [0], but a
    segment whose opening bracket is not closed is not tolerated: on
    [containers[0] the slice between the brackets has the bounds
    [11:-1] and the resolver panics, where the claim has it proceed as
    [containers[0]]. *)
Theorem C3_unclosed_bracket_panics :
  findNodeByPath pod "containers[0" = Panicked (SlicePanic 11 (-1) 12)
  /\ findNodeByPath pod "containers[0]"
     = Ok (mapping [ plain "name"; plain "web" ])
  /\ findNodeByPath pod "containers[x]" = findNodeByPath pod "containers[0]"
  /\ main "containers[0" (-1) false ": " (document pod)
     = ([], Crashed (SlicePanic 11 (-1) 12)).
Proof.
  repeat split.
Qed.

(** ** Plain segments and the errors of the resolver (C5) *)

Lemma findStep_plain_absent (current : Node) (part entry : string) :
  strings.Contains part "[" = false ->
  Kind current <> yaml.MappingNode \/ ~ In part (keys (Content current)) ->
  findStep current part entry = Err (InvalidFormat entry).
Proof.
  intros Hc Habs; unfold findStep; rewrite Hc.
  rewrite (getMapValue_absent _ _ Habs); reflexivity.
Qed.

(** The errors of one step are the three messages of the source. *)
Lemma findStep_errors (current : Node) (part entry e : string) :
  findStep current part entry = Err e ->
  (exists name, e = KeyNotFound name)
  \/ (exists name idx, e = IndexOutOfRange name idx)
  \/ e = InvalidFormat entry.
Proof.
  unfold findStep.
  destruct (strings.Contains part "[").
  - unfold slice.
    destruct (_ && _); simpl bind; [| discriminate].
    destruct (_ && _); simpl bind; [| discriminate].
    unfold descend.
    destruct (getMapValue current _) as [[child |] | e' | p] eqn:Hg; simpl bind.
    + destruct (_ || _).
      * intros H; injection H as <-; right; left; eauto.
      * unfold index; destruct (_ && _); [| discriminate].
        destruct (nth_error _ _); discriminate.
    + intros H; injection H as <-; left; eauto.
    + exfalso; exact (getMapValue_no_error _ _ _ Hg).
    + discriminate.
  - destruct (getMapValue current part) as [[next |] | e' | p] eqn:Hg; simpl bind.
    + discriminate.
    + intros H; injection H as <-; right; right; reflexivity.
    + exfalso; exact (getMapValue_no_error _ _ _ Hg).
    + discriminate.
Qed.

Lemma findLoop_errors (parts : list string) (current : Node) (entry e : string) :
  findLoop current parts entry = Err e ->
  (exists name, e = KeyNotFound name)
  \/ (exists name idx, e = IndexOutOfRange name idx)
  \/ e = InvalidFormat entry.
Proof.
  revert current; induction parts as [| part rest IH]; intros current; simpl.
  - discriminate.
  - destruct (findStep current part entry) as [next | e' | p] eqn:Hs; simpl bind.
    + apply IH.
    + intros H; injection H as <-; exact (findStep_errors _ _ _ _ Hs).
    + discriminate.
Qed.

(** An error of the resolver ends the run: it is reported and nothing is
    written to the output. *)
Lemma main_reports (entry : string) (depth : Z) (ie : bool) (sep : string)
    (root : Node) (e : string) :
  validSeparator sep -> entry <> EmptyString ->
  findNodeByPath root entry = Err e ->
  main entry depth ie sep (document root) = ([], Reported e).
Proof.
  intros Hsep Hne Hf; unfold main.
  rewrite (main_separator_ok _ Hsep).
  apply String.eqb_neq in Hne; rewrite Hne.
  simpl; rewrite Hf; reflexivity.
Qed.

(** C5, as stated, fails: a plain segment that is absent makes the
    resolver fail with the message [invalid format: <entrypoint>], which
    carries the whole path expression and not the key; it is a third
    message beside [key <name> not found] and
    [index [N] out of range for <name>]. *)
Lemma C5_absent_plain_key_is_invalid_format :
  let inner := mapping [ plain "c"; plain "1" ] in
  let root := mapping [ plain "a"; inner ] in
  strings.Contains "b" "[" = false
  /\ ~ In "b" (keys (Content inner))
  /\ findNodeByPath root "a.b" = Err "invalid format: a.b"
  /\ findNodeByPath root "a.b" <> Err (KeyNotFound "b")
  /\ (forall name idx, "invalid format: a.b" <> IndexOutOfRange name idx)
  /\ (forall name, "invalid format: a.b" <> KeyNotFound name).
Proof.
  repeat split; try discriminate.
  intros [H | []]; discriminate.
Qed.

(** C5, amended: when a plain segment is absent from the keys of the
    current node (lookup takes the first entry whose key is equal), or
    the current node is not a mapping, the resolver fails with
    [invalid format: <entrypoint>], naming the whole path expression
    ([key <name> not found] is the error of an indexed segment with such
    a name); the later segments are not looked at; every error of the
    resolver is
    one of [key <name> not found], [index [N] out of range for <name>]
    and [invalid format: <entrypoint>]; and an error ends the run with
    the error reported and no line written. *)
Theorem C5_plain_segment_failure (current : Node) (part entry : string)
    (rest : list string) :
  strings.Contains part "[" = false ->
  Kind current <> yaml.MappingNode \/ ~ In part (keys (Content current)) ->
  findStep current part entry = Err (InvalidFormat entry)
  /\ findLoop current (part :: rest) entry = Err (InvalidFormat entry)
  /\ (forall idx, descend current part idx = Err (KeyNotFound part))
  /\ (forall root e,
        findNodeByPath root entry = Err e ->
        (exists name, e = KeyNotFound name)
        \/ (exists name idx, e = IndexOutOfRange name idx)
        \/ e = InvalidFormat entry)
  /\ (forall root e depth ie sep,
        validSeparator sep -> entry <> EmptyString ->
        findNodeByPath root entry = Err e ->
        main entry depth ie sep (document root) = ([], Reported e)).
Proof.
  intros Hc Habs.
  pose proof (findStep_plain_absent current part entry Hc Habs) as Hs.
  split; [exact Hs |].
  split; [simpl; rewrite Hs; reflexivity |].
  split.
  { intros idx; unfold descend.
    rewrite (getMapValue_absent _ _ Habs); reflexivity. }
  split.
  - intros root e; apply findLoop_errors.
  - intros root e depth ie sep Hsep Hne Hf.
    apply main_reports; assumption.
Qed.

Lemma C5_plain_segment_failure_witness :
  findStep (mapping [ plain "c"; plain "1" ]) "b" "a.b"
  = Err (InvalidFormat "a.b").
Proof.
  apply (C5_plain_segment_failure (mapping [ plain "c"; plain "1" ])
           "b" "a.b" []).
  - reflexivity.
  - right; simpl; intros [H | []]; discriminate.
Defined.

(** ** Block scalars (C9) *)

Lemma writeLines_spec (lines : list string) (i n : Z) :
  n = i + Z.of_nat (List.length lines) ->
  writeLines lines i n
  = (map indented
         (if String.eqb (last lines EmptyString) EmptyString
          then removelast lines else lines), None).
Proof.
  revert i; induction lines as [| line rest IH]; intros i Hn.
  - reflexivity.
  - destruct rest as [| line' rest'].
    + simpl in Hn. simpl writeLines.
      replace (i =? n - 1) with true by (symmetry; apply Z.eqb_eq; lia).
      simpl last; simpl andb.
      destruct (String.eqb line EmptyString); reflexivity.
    + assert (Hi : (i =? n - 1) = false).
      { apply Z.eqb_neq; simpl List.length in Hn; lia. }
      change (writeLines (line :: line' :: rest') i n)
        with ((if (i =? n - 1) && String.eqb line EmptyString then done
               else emit ("  " ++ line ++ nl))
              ;; writeLines (line' :: rest') (i + 1) n).
      rewrite Hi; simpl andb; cbv iota.
      rewrite (IH (i + 1)) by (simpl List.length in *; lia).
      change (last (line :: line' :: rest') EmptyString)
        with (last (line' :: rest') EmptyString).
      change (removelast (line :: line' :: rest'))
        with (line :: removelast (line' :: rest')).
      destruct (String.eqb (last (line' :: rest') EmptyString) EmptyString);
        reflexivity.
Qed.

Lemma walkLeaf_block (sep : string) (node : Node) (path : list string) :
  isBlock node = true ->
  walkLeaf sep node path
  = ((lhs sep path ++ "|-" ++ nl)
       :: map indented (blockLines (Value node)), None).
Proof.
  intros Hb; unfold walkLeaf; rewrite Hb.
  rewrite writeLines_spec by lia.
  reflexivity.
Qed.

Lemma walkSwitch_scalar (ie : bool) (sep : string) (node : Node)
    (path : list string) (remain : Z) :
  Kind node = yaml.ScalarNode ->
  walkSwitch ie sep node path remain = walkLeaf sep node path.
Proof. intros HK; unfold walkSwitch; rewrite HK; reflexivity. Qed.

(** C9, as stated, fails: with [includeEmpty = false] a scalar whose
    value is only a line feed is blank, is dropped by the emptiness
    test, and gets no header line. *)
Lemma C9_blank_block_scalar_writes_nothing :
  Kind (plain nl) = yaml.ScalarNode
  /\ strings.Contains (Value (plain nl)) LF = true
  /\ isEmptyNode (plain nl) = true
  /\ walk false ": " (plain nl) ["k"] (-1) = ([], None).
Proof.
  repeat split.
Qed.

(** C9, amended: for every scalar leaf that the emptiness test lets
    through and whose value contains a line feed, or whose recorded
    style is exactly the literal flag or exactly the folded flag, with
    no other flag such as the tag flag set beside it, [walk] writes the
    header [<path><separator>|-] and then each line of the value behind
    two spaces, one write a line, leaving out the empty last line that a
    final line feed produces; the value [a\nb\n] gives the header and
    the two lines [  a] and [  b].  A block scalar recorded with a
    further flag is left out of the statement; what the program does
    with it is [tagged_block_scalar_written_inline] below. *)
Theorem C9_block_scalar (ie : bool) (sep : string) (node : Node)
    (path : list string) (remain : Z) :
  Kind node = yaml.ScalarNode ->
  strings.Contains (Value node) LF = true
  \/ Style node = yaml.LiteralStyle \/ Style node = yaml.FoldedStyle ->
  kept ie node = true ->
  walk ie sep node path remain
  = ((lhs sep path ++ "|-" ++ nl)
       :: map indented (blockLines (Value node)), None)
  /\ blockLines ("a" ++ nl ++ "b" ++ nl) = ["a"; "b"]
  /\ walk ie sep (plain ("a" ++ nl ++ "b" ++ nl)) path remain
     = ([lhs sep path ++ "|-" ++ nl; "  a" ++ nl; "  b" ++ nl], None).
Proof.
  intros HK Hb Hkept.
  assert (Hgen : forall n, Kind n = yaml.ScalarNode ->
            strings.Contains (Value n) LF = true
            \/ Style n = yaml.LiteralStyle \/ Style n = yaml.FoldedStyle ->
            kept ie n = true ->
            walk ie sep n path remain
            = ((lhs sep path ++ "|-" ++ nl)
                 :: map indented (blockLines (Value n)), None)).
  { intros n HKn Hbn Hkn.
    rewrite (walk_kept _ _ _ _ _ Hkn), (walkSwitch_scalar _ _ _ _ _ HKn).
    apply walkLeaf_block.
    unfold isBlock; rewrite HKn; simpl andb.
    destruct Hbn as [H | [H | H]]; rewrite H;
      rewrite ?orb_true_r; reflexivity. }
  split; [apply Hgen; assumption |].
  split; [reflexivity |].
  rewrite Hgen; [reflexivity | reflexivity | left; reflexivity |].
  unfold kept; destruct ie; reflexivity.
Qed.

Lemma C9_block_scalar_witness :
  walk false "=" (scalar yaml.LiteralStyle "one") ["k"] 3
  = (["k=|-" ++ nl; "  one" ++ nl], None).
Proof.
  apply (C9_block_scalar false "=" (scalar yaml.LiteralStyle "one") ["k"] 3).
  - reflexivity.
  - right; left; reflexivity.
  - reflexivity.
Defined.

(** The style is a set of flags, and [walk] compares it with one flag
    for equality.  A block scalar written with an explicit tag, as in
    [k: !!str |-] over the one line [one], is recorded with the tag
    flag beside the literal flag; it has no line feed in its value, the
    comparison fails, and the value is written on the line of its key
    with no header, although the scalar was a block scalar in the
    document (the comment above the test in [walk] says such a scalar
    is preserved as a literal block). *)
Lemma tagged_block_scalar_written_inline :
  let node := scalar (Z.lor yaml.TaggedStyle yaml.LiteralStyle) "one" in
  Z.land (Style node) yaml.LiteralStyle = yaml.LiteralStyle
  /\ kept true node = true
  /\ isBlock node = false
  /\ walk true ": " node ["k"] (-1) = (["k: one" ++ nl], None)
  /\ walk true ": " (scalar yaml.LiteralStyle "one") ["k"] (-1)
     = (["k: |-" ++ nl; "  one" ++ nl], None).
Proof.
  repeat split.
Qed.

(** ** Single-line scalars (C8) *)

Lemma length_append (a b : string) :
  String.length (a ++ b) = (String.length a + String.length b)%nat.
Proof. induction a as [| x a IH]; simpl; [| rewrite IH]; reflexivity. Qed.

Lemma substring_whole (s : string) (m : nat) :
  (String.length s <= m)%nat -> substring 0 m s = s.
Proof.
  revert m; induction s as [| x s IH]; intros m Hm.
  - destruct m; reflexivity.
  - destruct m as [| m]; simpl in *; [lia |].
    rewrite IH by lia; reflexivity.
Qed.

Lemma ContainsAny_lacks (s chars : string) (c : ascii) :
  strings.ContainsAny s chars = false ->
  0 <= strings.Index chars c -> lacks s c.
Proof.
  induction s as [| x s IH]; intros Hf Hc; [reflexivity |].
  simpl in Hf; apply orb_false_iff in Hf; destruct Hf as [Hx Hs].
  apply lacks_cons; split; [| exact (IH Hs Hc)].
  destruct (Ascii.eqb_spec x c) as [-> | _]; [| reflexivity].
  apply Z.leb_gt in Hx; lia.
Qed.

(** Double quotes are escaped one by one, and nothing else changes. *)
Lemma escaped_quote (a b : string) :
  escaped (a ++ String dquote b)
  = escaped a ++ String backslash (String dquote (escaped b)).
Proof.
  unfold escaped; induction a as [| x a IH]; [reflexivity |].
  simpl; rewrite IH; destruct (Ascii.eqb x dquote); reflexivity.
Qed.

Lemma escaped_plain (s : string) : lacks s dquote -> escaped s = s.
Proof.
  unfold escaped; induction s as [| x s IH]; intros H; [reflexivity |].
  apply lacks_cons in H; destruct H as [Hx Hs].
  simpl; rewrite Hx, (IH Hs); reflexivity.
Qed.

Lemma LastIndex_cons (x : ascii) (t sub : string) :
  LastIndex (String x t) sub
  = if 0 <=? LastIndex t sub then LastIndex t sub + 1
    else if String.prefix sub (String x t) then 0 else -1.
Proof. reflexivity. Qed.

Lemma LastIndex_lacks (s sub : string) (c : ascii) :
  lacks s c -> LastIndex s (String c sub) = -1.
Proof.
  induction s as [| x s IH]; intros H; [reflexivity |].
  apply lacks_cons in H; destruct H as [Hx Hs].
  rewrite LastIndex_cons, (IH Hs); simpl.
  destruct (ascii_dec c x) as [-> | _]; [| reflexivity].
  rewrite Ascii.eqb_refl in Hx; discriminate.
Qed.

Lemma prefix_append (s t : string) : String.prefix s (s ++ t) = true.
Proof.
  induction s as [| a s IH]; [destruct t; reflexivity |].
  simpl; destruct (ascii_dec a a) as [_ | N]; [exact IH | contradiction].
Qed.

Lemma LastIndex_at (p sub t : string) (x : ascii) :
  String.prefix sub (String x t) = true ->
  LastIndex t sub = -1 ->
  LastIndex (p ++ String x t) sub = len p.
Proof.
  intros Hp Ht; induction p as [| y p IH].
  - simpl append; rewrite LastIndex_cons, Ht, Hp; reflexivity.
  - simpl append; rewrite LastIndex_cons, IH, len_cons.
    pose proof (len_nonneg p).
    destruct (Z.leb_spec 0 (len p)); [reflexivity | lia].
Qed.

Lemma FirstIndex_cons (x : ascii) (t sub : string) :
  FirstIndex (String x t) sub
  = if String.prefix sub (String x t) then 0
    else if FirstIndex t sub <? 0 then -1 else FirstIndex t sub + 1.
Proof. reflexivity. Qed.

Lemma FirstIndex_at (p sub t : string) (c : ascii) :
  lacks p c ->
  FirstIndex (p ++ String c (sub ++ t)) (String c sub) = len p.
Proof.
  intros Hp; induction p as [| y p IH].
  - simpl append; rewrite FirstIndex_cons.
    change (String c (sub ++ t)) with (String c sub ++ t).
    rewrite prefix_append; reflexivity.
  - apply lacks_cons in Hp; destruct Hp as [Hy Hp].
    simpl append; rewrite FirstIndex_cons, (IH Hp), len_cons.
    simpl String.prefix.
    destruct (ascii_dec c y) as [-> | _].
    + rewrite Ascii.eqb_refl in Hy; discriminate.
    + pose proof (len_nonneg p).
      destruct (Z.ltb_spec (len p) 0); [lia | reflexivity].
Qed.

Lemma after_separator (p sep val : string) :
  after ((p ++ sep) ++ val) sep (len p) = Some val.
Proof.
  unfold after; pose proof (len_nonneg p).
  destruct (Z.ltb_spec (len p) 0); [lia |].
  f_equal; unfold len; rewrite Nat2Z.id, <- length_append, substring_skip.
  apply substring_whole; rewrite !length_append; lia.
Qed.

(** The value is what follows the last separator of the line, when the
    separator does not occur in the value. *)
Lemma valueAfterLast_line (sep val : string) (path : list string) :
  sep = ": " /\ lacks val ":" \/ sep = "=" /\ lacks val "=" ->
  valueAfterLast (lhs sep path ++ val) sep = Some val.
Proof.
  intros Hsep; unfold valueAfterLast, lhs.
  set (p := strings.Join path ".").
  assert (HL : LastIndex ((p ++ sep) ++ val) sep = len p).
  { rewrite append_assoc.
    destruct Hsep as [[-> Hv] | [-> Hv]].
    - apply LastIndex_at; [exact (prefix_append ": " val) |].
      apply LastIndex_lacks, lacks_cons; split; [reflexivity | exact Hv].
    - apply LastIndex_at; [exact (prefix_append "=" val) |].
      apply LastIndex_lacks; exact Hv. }
  rewrite HL; apply after_separator.
Qed.

(** The value is what follows the first separator of the line, when the
    first byte of the separator does not occur in the joined path. *)
Lemma valueAfterFirst_line (sep val : string) (path : list string) :
  sep = ": " /\ lacks (strings.Join path ".") ":"
  \/ sep = "=" /\ lacks (strings.Join path ".") "=" ->
  valueAfterFirst (lhs sep path ++ val) sep = Some val.
Proof.
  intros Hsep; unfold valueAfterFirst, lhs.
  set (p := strings.Join path ".") in *.
  assert (HF : FirstIndex ((p ++ sep) ++ val) sep = len p).
  { rewrite append_assoc.
    destruct Hsep as [[-> Hp] | [-> Hp]].
    - exact (FirstIndex_at p " " val ":" Hp).
    - exact (FirstIndex_at p EmptyString val "=" Hp). }
  rewrite HF; apply after_separator.
Qed.

(** C8, as stated, fails twice.  With [includeEmpty = false] a value
    made of one space has a leading space but is blank, so the
    emptiness test drops it and there is no quoted line.  With the
    separator [=], a value that holds [=] is written verbatim, and the
    line [x=y=v] is written both for the value [v] under the key [x=y]
    and for the value [y=v] under the key [x]: splitting the line on
    the separator cannot give back both. *)
Lemma C8_blank_value_and_ambiguous_line :
  (Kind (plain " ") = yaml.ScalarNode
   /\ strings.Contains " " LF = false
   /\ strings.HasPrefix " " " " = true
   /\ walk false ": " (plain " ") ["k"] (-1) = ([], None))
  /\ (needsQuotes "v" = false /\ needsQuotes "y=v" = false
      /\ walk false "=" (plain "v") ["x=y"] (-1) = (["x=y=v" ++ nl], None)
      /\ walk false "=" (plain "y=v") ["x"] (-1) = (["x=y=v" ++ nl], None)
      /\ valueAfterFirst "x=y=v" "=" = Some "y=v"
      /\ valueAfterLast "x=y=v" "=" = Some "v"
      /\ ~ (exists resplit : string -> string -> string,
              resplit "x=y=v" "=" = "v" /\ resplit "x=y=v" "=" = "y=v")).
Proof.
  split; [repeat split |].
  repeat split.
  intros [resplit [H1 H2]]; rewrite H1 in H2; discriminate.
Qed.

(** The test and the escaping of the program are those of the
    specification. *)

Lemma Index_In (s : string) (c : ascii) :
  0 <= strings.Index s c <-> In c (list_ascii_of_string s).
Proof.
  induction s as [| a t IH]; simpl.
  - split; [lia | intros []].
  - destruct (Ascii.eqb_spec a c) as [E | N].
    + split; [intros _; left; exact E | lia].
    + destruct (Z.ltb_spec (strings.Index t c) 0) as [Hlt | Hge].
      * split; [lia | intros [E | Hin]; [contradiction |]].
        apply IH in Hin; lia.
      * split; [intros _; right; apply IH; exact Hge | lia].
Qed.

Lemma ContainsAny_spec (s chars : string) :
  strings.ContainsAny s chars = true <->
  exists c, In c (list_ascii_of_string chars) /\ ~ lacks s c.
Proof.
  split.
  - induction s as [| a t IH]; simpl; [discriminate |].
    intros H; apply orb_true_iff in H; destruct H as [H | H].
    + exists a; split; [apply Index_In, Z.leb_le; exact H |].
      intros Hl; apply lacks_cons in Hl; destruct Hl as [Hl _].
      rewrite Ascii.eqb_refl in Hl; discriminate.
    + destruct (IH H) as [c [Hc Hn]]; exists c; split; [exact Hc |].
      intros Hl; apply lacks_cons in Hl; destruct Hl as [_ Hl]; exact (Hn Hl).
  - intros [c [Hc Hn]].
    destruct (strings.ContainsAny s chars) eqn:E; [reflexivity |].
    exfalso; apply Hn, (ContainsAny_lacks s chars c E), Index_In; exact Hc.
Qed.

Lemma HasPrefix_spec (s : string) (c : ascii) :
  strings.HasPrefix s c = true <-> exists t, s = String c t.
Proof.
  destruct s as [| a t]; simpl.
  - split; [discriminate | intros [t H]; discriminate].
  - split.
    + intros H; apply Ascii.eqb_eq in H; subst a; exists t; reflexivity.
    + intros [t' H]; injection H as -> _; apply Ascii.eqb_refl.
Qed.

Lemma HasSuffix_spec (s : string) (c : ascii) :
  strings.HasSuffix s c = true
  <-> exists t, s = t ++ String c EmptyString.
Proof.
  induction s as [| a t IH].
  - split; [discriminate | intros [[| x u] H]; discriminate].
  - destruct t as [| b t1].
    + simpl; split.
      * intros H; apply Ascii.eqb_eq in H; subst a;
          exists EmptyString; reflexivity.
      * intros [[| x u] H]; simpl in H.
        -- injection H as ->; apply Ascii.eqb_refl.
        -- injection H as _ H; destruct u; discriminate.
    + change (strings.HasSuffix (String a (String b t1)) c)
        with (strings.HasSuffix (String b t1) c).
      rewrite IH; split.
      * intros [u H]; exists (String a u); simpl; rewrite <- H; reflexivity.
      * intros [[| x u] H]; simpl in H; [discriminate |].
        injection H as _ H; exists u; exact H.
Qed.

Lemma needsQuotes_spec (val : string) :
  needsQuotes val = true <-> mustQuote val.
Proof.
  unfold needsQuotes, mustQuote, specialChars.
  rewrite !orb_true_iff, ContainsAny_spec, HasPrefix_spec, HasSuffix_spec.
  tauto.
Qed.

Lemma escaped_spec (val : string) : escaped val = escapeQuotes val.
Proof.
  unfold escaped; induction val as [| c t IH]; [reflexivity |].
  simpl; rewrite IH; destruct (Ascii.eqb c dquote); reflexivity.
Qed.

(** C8, amended: for every scalar leaf that the emptiness test lets
    through, whose value has no line feed and whose style is neither
    literal nor folded: if the value contains one of the characters
    [:[]{},] or has a leading or trailing space, the line written is
    the path, the separator and the value between double quotes, with
    each double quote of the value escaped by a backslash before it;
    otherwise the value is written verbatim, and then splitting the line
    on the separator gives back the original value in two cases: at the
    last occurrence of the separator, provided the value does not
    contain the separator (always so for the separator [": "]; for [=]
    the value must hold no [=]); and at the first occurrence, provided
    the first byte of the separator does not occur in the joined path.
    The test is [mustQuote] and the escaping is [escapeQuotes], both
    written from the words above and not from the program. *)
Theorem C8_single_line_scalar (ie : bool) (sep : string) (node : Node)
    (path : list string) (remain : Z) :
  Kind node = yaml.ScalarNode ->
  strings.Contains (Value node) LF = false ->
  Style node <> yaml.LiteralStyle ->
  Style node <> yaml.FoldedStyle ->
  kept ie node = true ->
  (mustQuote (Value node) ->
   walk ie sep node path remain
   = ([strings.Join path "." ++ sep
         ++ String dquote (escapeQuotes (Value node))
         ++ String dquote nl], None))
  /\ (~ mustQuote (Value node) ->
      walk ie sep node path remain
      = ([strings.Join path "." ++ sep ++ Value node ++ nl], None)
      /\ (sep = ": " \/ sep = "=" /\ lacks (Value node) "=" ->
          valueAfterLast (lhs sep path ++ Value node) sep
          = Some (Value node))
      /\ (sep = ": " /\ lacks (strings.Join path ".") ":"
          \/ sep = "=" /\ lacks (strings.Join path ".") "=" ->
          valueAfterFirst (lhs sep path ++ Value node) sep
          = Some (Value node))).
Proof.
  intros HK Hnl Hlit Hfold Hkept.
  assert (Hb : isBlock node = false).
  { unfold isBlock; rewrite HK, Hnl; simpl.
    apply Z.eqb_neq in Hlit; apply Z.eqb_neq in Hfold.
    rewrite Hlit, Hfold; reflexivity. }
  rewrite (walk_kept _ _ _ _ _ Hkept), (walkSwitch_scalar _ _ _ _ _ HK).
  unfold walkLeaf; rewrite Hb.
  split; intros Hq.
  - apply needsQuotes_spec in Hq; rewrite Hq, escaped_spec.
    unfold lhs; rewrite append_assoc; reflexivity.
  - assert (Hn : needsQuotes (Value node) = false).
    { destruct (needsQuotes (Value node)) eqn:E; [| reflexivity].
      exfalso; apply Hq, needsQuotes_spec; exact E. }
    rewrite Hn.
    split; [unfold lhs; rewrite append_assoc; reflexivity |].
    split; [| apply valueAfterFirst_line].
    intros Hsep; apply valueAfterLast_line.
    destruct Hsep as [-> | [-> Hv]]; [left | right]; split; auto.
    unfold needsQuotes in Hn.
    apply orb_false_iff in Hn; destruct Hn as [Hn _].
    apply orb_false_iff in Hn; destruct Hn as [Hn _].
    apply (ContainsAny_lacks _ _ _ Hn); vm_compute; discriminate.
Qed.

Lemma C8_single_line_scalar_witness :
  walk false ": " (plain ("say " ++ String dquote ("hi" ++ String dquote ", ok")))
       ["k"] (-1)
  = (["k: "
        ++ String dquote
             ("say "
                ++ String backslash
                     (String dquote
                        ("hi"
                           ++ String backslash
                                (String dquote (", ok" ++ String dquote nl)))))],
     None).
Proof.
  apply (C8_single_line_scalar false ": "
           (plain ("say " ++ String dquote ("hi" ++ String dquote ", ok")))
           ["k"] (-1)); try reflexivity; try discriminate.
  left; exists ","%char; split; [vm_compute; tauto | vm_compute; discriminate].
Defined.

(** ** Loops over [Content] *)

Lemma values_incl (l : list Node) (v : Node) : In v (values l) -> In v l.
Proof.
  revert l; fix IH 1; intros [| k [| v' rest]] H; simpl in *; try contradiction.
  destruct H as [H | H]; [auto | right; right; apply IH; exact H].
Qed.

Lemma forPairs_nil (body : Node -> Node -> writes) (n : Z) (l : list Node) :
  (forall k v, In v (values l) -> fst (body k v) = []) ->
  fst (forPairs body n l) = [].
Proof.
  revert l; fix IH 1; intros [| k [| v rest]] H; try reflexivity.
  change (forPairs body n (k :: v :: rest))
    with (body k v ;; forPairs body n rest).
  apply fst_andThen_nil.
  - apply H; left; reflexivity.
  - apply IH; intros k' v' Hin; apply H; right; exact Hin.
Qed.

Lemma forItems_nil (body : Z -> Node -> writes) (l : list Node) (i : Z) :
  (forall j item, In item l -> fst (body j item) = []) ->
  fst (forItems body l i) = [].
Proof.
  revert i; induction l as [| item rest IH]; intros i H; [reflexivity |].
  change (forItems body (item :: rest) i)
    with (body i item ;; forItems body rest (i + 1)).
  apply fst_andThen_nil.
  - apply H; left; reflexivity.
  - apply IH; intros j x Hin; apply H; right; exact Hin.
Qed.

Lemma in_forPairs (body : Node -> Node -> writes) (n : Z) (l : list Node)
    (w : string) :
  In w (fst (forPairs body n l)) ->
  exists k v, In v (values l) /\ In w (fst (body k v)).
Proof.
  revert l; fix IH 1; intros [| k [| v rest]] H; try contradiction.
  change (forPairs body n (k :: v :: rest))
    with (body k v ;; forPairs body n rest) in H.
  apply in_fst_andThen in H; destruct H as [H | H].
  - exists k, v; split; [left; reflexivity | exact H].
  - destruct (IH rest H) as [k' [v' [Hin Hw]]].
    exists k', v'; split; [right; exact Hin | exact Hw].
Qed.

Lemma in_forItems (body : Z -> Node -> writes) (l : list Node) (i : Z)
    (w : string) :
  In w (fst (forItems body l i)) ->
  exists j item, In item l /\ In w (fst (body j item)).
Proof.
  revert i; induction l as [| item rest IH]; intros i H; [contradiction |].
  change (forItems body (item :: rest) i)
    with (body i item ;; forItems body rest (i + 1)) in H.
  apply in_fst_andThen in H; destruct H as [H | H].
  - exists i, item; split; [left; reflexivity | exact H].
  - destruct (IH _ H) as [j [x [Hin Hw]]].
    exists j, x; split; [right; exact Hin | exact Hw].
Qed.

Lemma forPairs_ext (f g : Node -> Node -> writes) (n : Z) (l : list Node) :
  (forall k v, In v (values l) -> f k v = g k v) ->
  forPairs f n l = forPairs g n l.
Proof.
  revert l; fix IH 1; intros [| k [| v rest]] H; try reflexivity.
  change (forPairs f n (k :: v :: rest)) with (f k v ;; forPairs f n rest).
  change (forPairs g n (k :: v :: rest)) with (g k v ;; forPairs g n rest).
  rewrite (H k v) by (left; reflexivity).
  rewrite (IH rest) by (intros k' v' Hin; apply H; right; exact Hin).
  reflexivity.
Qed.

Lemma forItems_ext (f g : Z -> Node -> writes) (l : list Node) (i : Z) :
  (forall j item, In item l -> f j item = g j item) ->
  forItems f l i = forItems g l i.
Proof.
  revert i; induction l as [| item rest IH]; intros i H; [reflexivity |].
  change (forItems f (item :: rest) i)
    with (f i item ;; forItems f rest (i + 1)).
  change (forItems g (item :: rest) i)
    with (g i item ;; forItems g rest (i + 1)).
  rewrite (H i item) by (left; reflexivity).
  rewrite (IH (i + 1)) by (intros j x Hin; apply H; right; exact Hin).
  reflexivity.
Qed.

Lemma nextRem_negative (r : Z) : r < 0 -> nextRem r = r.
Proof. intros H; unfold nextRem; destruct (Z.ltb_spec 0 r); [lia | reflexivity]. Qed.

Lemma nextRem_positive (r : Z) : 0 < r -> nextRem r = r - 1.
Proof. intros H; unfold nextRem; destruct (Z.ltb_spec 0 r); [reflexivity | lia]. Qed.

(** ** Budgets that never run out *)

Lemma height_unfold (node : Node) :
  height node = 1 + tallest (Content node).
Proof. destruct node as [k s v c]; reflexivity. Qed.

Lemma tallest_nonneg (l : list Node) : 0 <= tallest l.
Proof. induction l as [| x l IH]; simpl; lia. Qed.

Lemma tallest_bound (l : list Node) (x : Node) :
  In x l -> height x <= tallest l.
Proof.
  induction l as [| y l IH]; [contradiction |].
  intros [-> | H]; simpl; [lia |].
  specialize (IH H); lia.
Qed.

(** A negative budget is unlimited: the walk is the one of any other
    negative budget and of any budget that covers the height of the
    tree. *)
Lemma walk_unlimited (ie : bool) (sep : string) (node : Node) :
  forall (path : list string) (r r' : Z),
    r < 0 -> r' < 0 \/ height node <= r' ->
    walk ie sep node path r = walk ie sep node path r'.
Proof.
  induction node as [kind s v c IH] using Node_forall_ind.
  intros path r r' Hr Hr'.
  rewrite !walk_unfold.
  destruct (negb ie && isEmptyNode (yaml.mkNode kind s v c)); [reflexivity |].
  rewrite Forall_forall in IH.
  rewrite height_unfold in Hr'; cbn [Content] in Hr'.
  pose proof (tallest_nonneg c) as Hc.
  unfold walkSwitch; cbn [Kind Content].
  assert (Hnext : forall x, In x c ->
            nextRem r < 0 /\ (nextRem r' < 0 \/ height x <= nextRem r')).
  { intros x Hx; pose proof (tallest_bound c x Hx).
    rewrite (nextRem_negative r) by lia; split; [lia |].
    destruct Hr' as [Hn | Hh].
    - left; rewrite nextRem_negative; lia.
    - right; rewrite nextRem_positive; lia. }
  replace (r =? 0) with false by (symmetry; apply Z.eqb_neq; lia).
  replace (r' =? 0) with false by (symmetry; apply Z.eqb_neq; lia).
  destruct kind; try reflexivity.
  - apply forItems_ext; intros j item Hin.
    destruct (suffixLast path j); try reflexivity.
    apply IH; [exact Hin | apply (Hnext item Hin) | apply (Hnext item Hin)].
  - apply forPairs_ext; intros key val Hin.
    apply values_incl in Hin.
    apply IH; [exact Hin | apply (Hnext val Hin) | apply (Hnext val Hin)].
Qed.

(** ** Skipping empty nodes (C7) *)

Lemma isEmptyNode_spec (node : Node) :
  isEmptyNode node = true <->
  (Kind node = yaml.ScalarNode
   /\ strings.TrimSpace (Value node) = EmptyString)
  \/ ((Kind node = yaml.MappingNode \/ Kind node = yaml.SequenceNode)
      /\ Content node = []).
Proof.
  unfold isEmptyNode; destruct (Kind node).
  - split; [discriminate | intros [[H _] | [[H | H] _]]; discriminate].
  - split.
    + intros H; right; split; [right; reflexivity |].
      destruct (Content node); [reflexivity | discriminate].
    + intros [[H _] | [_ H]]; [discriminate | rewrite H; reflexivity].
  - split.
    + intros H; right; split; [left; reflexivity |].
      destruct (Content node); [reflexivity | discriminate].
    + intros [[H _] | [_ H]]; [discriminate | rewrite H; reflexivity].
  - rewrite String.eqb_eq; split.
    + intros H; left; split; [reflexivity | exact H].
    + intros [[_ H] | [[H | H] _]]; [exact H | discriminate | discriminate].
  - split; [discriminate | intros [[H _] | [[H | H] _]]; discriminate].
Qed.

Lemma barren_unfold (node : Node) :
  barren node
  = isEmptyNode node
    || match Kind node with
       | yaml.MappingNode => forallb barren (values (Content node))
       | yaml.SequenceNode => forallb barren (Content node)
       | _ => false
       end.
Proof.
  destruct node as [k s v c]; destruct k; try reflexivity.
  change (barren (yaml.mkNode yaml.MappingNode s v c))
    with (isEmptyNode (yaml.mkNode yaml.MappingNode s v c)
          || (fix vals (l : list Node) : bool :=
                match l with
                | _ :: v :: rest => barren v && vals rest
                | _ => true
                end) c).
  f_equal; cbn [Kind Content].
  revert c; fix IH 1; intros [| x [| y c]]; try reflexivity.
  simpl values; simpl forallb; rewrite <- IH; reflexivity.
Qed.

(** A node skipped by the emptiness test writes nothing, whatever is
    beneath it. *)
Lemma walk_empty (sep : string) (node : Node) (path : list string) (remain : Z) :
  isEmptyNode node = true -> walk false sep node path remain = ([], None).
Proof.
  intros He; apply walk_skipped; unfold kept; rewrite He; reflexivity.
Qed.

(** Children that are all classified empty: nothing is written unless
    the budget is [0]. *)
Lemma walk_children_empty (sep : string) (node : Node) (path : list string)
    (remain : Z) :
  Kind node = yaml.MappingNode \/ Kind node = yaml.SequenceNode ->
  Forall (fun c => isEmptyNode c = true) (children node) ->
  remain <> 0 ->
  fst (walk false sep node path remain) = [].
Proof.
  intros HK Hall Hr; rewrite walk_unfold.
  destruct (negb false && isEmptyNode node); [reflexivity |].
  rewrite Forall_forall in Hall.
  unfold children in Hall; unfold walkSwitch.
  apply Z.eqb_neq in Hr.
  destruct HK as [HK | HK]; rewrite HK in *; rewrite Hr.
  - apply forPairs_nil; intros k v Hin.
    rewrite walk_empty by (apply Hall; exact Hin); reflexivity.
  - apply forItems_nil; intros j item Hin.
    destruct (suffixLast path j); try reflexivity.
    rewrite walk_empty by (apply Hall; exact Hin); reflexivity.
Qed.

(** Nested combinations of empty nodes: nothing is written under an
    unlimited budget. *)
Lemma walk_barren (sep : string) (node : Node) :
  barren node = true ->
  forall path remain, remain < 0 ->
  fst (walk false sep node path remain) = [].
Proof.
  induction node as [k s v c IH] using Node_forall_ind.
  intros Hb path remain Hr; rewrite walk_unfold.
  rewrite barren_unfold in Hb.
  destruct (isEmptyNode (yaml.mkNode k s v c)); [reflexivity |].
  simpl in Hb; simpl negb; simpl andb; cbv iota.
  rewrite Forall_forall in IH.
  unfold walkSwitch; simpl Kind; simpl Content.
  replace (remain =? 0) with false by (symmetry; apply Z.eqb_neq; lia).
  destruct k; try discriminate.
  - rewrite forallb_forall in Hb.
    apply forItems_nil; intros j item Hin.
    destruct (suffixLast path j); try reflexivity.
    apply IH; [exact Hin | apply Hb; exact Hin |].
    rewrite nextRem_negative; lia.
  - rewrite forallb_forall in Hb.
    apply forPairs_nil; intros key val Hin.
    apply IH; [apply values_incl; exact Hin | apply Hb; exact Hin |].
    rewrite nextRem_negative; lia.
Qed.

(** C7, as stated, fails at budget [0]: the mapping with the single
    entry [a] whose value is the empty string has only empty
    descendants, yet it is itself not empty, so with budget [0] it is
    replaced by its placeholder line instead of producing no line. *)
Lemma C7_budget_zero_keeps_placeholder :
  let node := mapping [ plain "a"; plain EmptyString ] in
  Kind node = yaml.MappingNode
  /\ children node = [ plain EmptyString ]
  /\ Forall (fun c => isEmptyNode c = true) (children node)
  /\ barren node = true
  /\ walk false ": " node ["p"] 0 = (["p: <object>" ++ nl], None).
Proof.
  repeat split.
  repeat constructor.
Qed.

(** C7, amended: a scalar is classified empty iff its trimmed value is
    the empty string, a mapping or sequence iff it has no [Content];
    with [includeEmpty = false], [walk] skips exactly the nodes so
    classified, writing nothing for a skipped node or anything beneath
    it and entering the switch for every other node; so a mapping (or
    sequence) whose children are all empty writes no line when the
    budget is not [0], and one whose descendants are nested
    combinations of empty nodes writes no line under a budget that is
    unlimited or covers the height of the tree (at budget [0] a mapping
    that has entries gets its placeholder line instead); with
    [includeEmpty = true] the test is not applied and every node enters
    the switch. *)
Theorem C7_empty_nodes_skipped (sep : string) (node : Node)
    (path : list string) (remain : Z) :
  (isEmptyNode node = true <->
   (Kind node = yaml.ScalarNode
    /\ strings.TrimSpace (Value node) = EmptyString)
   \/ ((Kind node = yaml.MappingNode \/ Kind node = yaml.SequenceNode)
       /\ Content node = []))
  /\ (isEmptyNode node = true ->
      walk false sep node path remain = ([], None))
  /\ (isEmptyNode node = false ->
      walk false sep node path remain = walkSwitch false sep node path remain)
  /\ (Kind node = yaml.MappingNode \/ Kind node = yaml.SequenceNode ->
      Forall (fun c => isEmptyNode c = true) (children node) ->
      remain <> 0 ->
      fst (walk false sep node path remain) = [])
  /\ (barren node = true -> remain < 0 \/ height node <= remain ->
      fst (walk false sep node path remain) = [])
  /\ walk true sep node path remain = walkSwitch true sep node path remain.
Proof.
  split; [apply isEmptyNode_spec |].
  split; [apply walk_empty |].
  split.
  { intros He; apply walk_kept; unfold kept; rewrite He; reflexivity. }
  split; [apply walk_children_empty |].
  split.
  { intros Hb Hr.
    rewrite <- (walk_unlimited false sep node path (-1) remain) by (lia || exact Hr).
    apply walk_barren; [exact Hb | lia]. }
  apply walk_kept; reflexivity.
Qed.

Lemma C7_empty_nodes_skipped_witness :
  fst (walk false ": "
         (mapping [ plain "a"; plain EmptyString;
                    plain "b"; mapping [];
                    plain "c"; sequence [ plain " "; mapping [] ] ])
         ["p"] (-1)) = [].
Proof.
  apply (C7_empty_nodes_skipped ": "
           (mapping [ plain "a"; plain EmptyString;
                      plain "b"; mapping [];
                      plain "c"; sequence [ plain " "; mapping [] ] ])
           ["p"] (-1)).
  - reflexivity.
  - left; lia.
Defined.

(** ** The writes of a leaf *)

Lemma in_walkLeaf (sep : string) (node : Node) (path : list string)
    (w : string) :
  In w (fst (walkLeaf sep node path)) ->
  (exists line, w = indented line) \/ (exists rest, w = lhs sep path ++ rest).
Proof.
  unfold walkLeaf.
  destruct (isBlock node).
  - rewrite writeLines_spec by lia.
    simpl; intros [H | H].
    + right; eexists; symmetry; exact H.
    + apply in_map_iff in H; destruct H as [line [H _]].
      left; exists line; symmetry; exact H.
  - destruct (needsQuotes (Value node)); simpl; intros [H | []];
      right; eexists; symmetry; exact H.
Qed.

(** * Further properties of the resolver *)

(** ** Lookup in a mapping *)

(** Induction on a [Content] list two entries at a time. *)
Lemma pairs_ind (P : list Node -> Prop) :
  P [] -> (forall k, P [k]) ->
  (forall k v rest, P rest -> P (k :: v :: rest)) ->
  forall l, P l.
Proof.
  intros H0 H1 H2.
  exact (fix go (l : list Node) : P l :=
           match l with
           | [] => H0
           | [k] => H1 k
           | k :: v :: rest => H2 k v rest (go rest)
           end).
Qed.

Lemma lookupPairs_found (l : list Node) (key : string) (n : Z) (v : Node) :
  lookupPairs l key n = Ok (Some v) ->
  exists pre k rest,
    l = (pre ++ k :: v :: rest)%list
    /\ Nat.Even (List.length pre) /\ Value k = key /\ ~ In key (keys pre).
Proof.
  induction l as [| k | k v' rest IH] using pairs_ind; intros H; simpl in H.
  - discriminate.
  - destruct (String.eqb (Value k) key); discriminate.
  - destruct (String.eqb_spec (Value k) key) as [E | N].
    + injection H as <-.
      exists [], k, rest; repeat split; auto.
      exists 0%nat; reflexivity.
    + destruct (IH H) as [pre [k' [rest' [Hl [Hev [Hk Hin]]]]]].
      exists (k :: v' :: pre), k', rest'; repeat split.
      * rewrite Hl; reflexivity.
      * apply (proj2 (Nat.Even_succ_succ _)); exact Hev.
      * exact Hk.
      * simpl; intros [E | E]; [exact (N E) | exact (Hin E)].
Qed.

Lemma lookupPairs_even (l : list Node) (key : string) (n : Z) :
  Nat.Even (List.length l) ->
  (exists r, lookupPairs l key n = Ok r)
  /\ (lookupPairs l key n = Ok None -> ~ In key (keys l)).
Proof.
  induction l as [| k | k v rest IH] using pairs_ind; intros Hev.
  - split; [exists None; reflexivity | intros _ []].
  - destruct Hev as [m Hm]; simpl in Hm; lia.
  - simpl List.length in Hev; apply (proj1 (Nat.Even_succ_succ _)) in Hev.
    destruct (IH Hev) as [[r Hr] Hnone].
    simpl; destruct (String.eqb_spec (Value k) key) as [E | N].
    + split; [exists (Some v); reflexivity | discriminate].
    + split; [exists r; exact Hr |].
      intros H [E | E]; [exact (N E) | exact (Hnone H E)].
Qed.

(** X1: [getMapValue] answers a node exactly when the node asked is a
    mapping and the answer is the value paired with the first key of
    [Content] that equals the key asked for: later entries with the
    same key are never reached. *)
Theorem X1_getMapValue_first_match (node : Node) (key : string) (v : Node) :
  getMapValue node key = Ok (Some v) <->
  Kind node = yaml.MappingNode
  /\ exists pre k rest,
       Content node = (pre ++ k :: v :: rest)%list
       /\ Nat.Even (List.length pre) /\ Value k = key /\ ~ In key (keys pre).
Proof.
  unfold getMapValue; split.
  - destruct (Kind node) eqn:HK; simpl; try discriminate.
    intros H; split; [reflexivity |].
    exact (lookupPairs_found _ _ _ _ H).
  - intros [HK [pre [k [rest [Hc [Hev [Hk Hin]]]]]]].
    rewrite HK, Hc; simpl negb; cbv iota; subst key.
    apply lookupPairs_first_match; assumption.
Qed.

(** X2: on a node whose [Content] has even length [getMapValue] never
    panics, and it answers [nil] exactly when the node is not a mapping
    or no key of the mapping equals the key asked for. *)
Theorem X2_getMapValue_total_on_pairs (node : Node) (key : string) :
  Nat.Even (List.length (Content node)) ->
  (exists r, getMapValue node key = Ok r)
  /\ (getMapValue node key = Ok None <->
      Kind node <> yaml.MappingNode \/ ~ In key (keys (Content node))).
Proof.
  intros Hev; split.
  - unfold getMapValue; destruct (negb _); [exists None; reflexivity |].
    exact (proj1 (lookupPairs_even _ key _ Hev)).
  - split; [| apply getMapValue_absent].
    unfold getMapValue; destruct (Kind node) eqn:HK; simpl;
      try (intros _; left; discriminate).
    intros H; right; exact (proj2 (lookupPairs_even _ key _ Hev) H).
Qed.

Lemma X2_getMapValue_total_on_pairs_witness :
  getMapValue pod "volumes" = Ok None.
Proof.
  apply (X2_getMapValue_total_on_pairs pod "volumes").
  - exists 1%nat; reflexivity.
  - right; simpl; intros [H | []]; discriminate.
Defined.

(** ** Resolution segment by segment *)

Lemma Split_nonempty (s : string) (c : ascii) : strings.Split s c <> [].
Proof.
  destruct s as [| a t]; simpl; [discriminate |].
  destruct (Ascii.eqb a c); [discriminate |].
  destruct (strings.Split t c); discriminate.
Qed.

Lemma Split_app (p q : string) (c : ascii) :
  strings.Split (p ++ String c q) c
  = (strings.Split p c ++ strings.Split q c)%list.
Proof.
  induction p as [| a t IH]; simpl.
  - rewrite Ascii.eqb_refl; reflexivity.
  - rewrite IH; destruct (Ascii.eqb a c); [reflexivity |].
    pose proof (Split_nonempty t c) as Hne.
    destruct (strings.Split t c); [contradiction | reflexivity].
Qed.

Lemma Split_lacks (s : string) (c : ascii) :
  lacks s c -> strings.Split s c = [s].
Proof.
  induction s as [| a t IH]; intros H; [reflexivity |].
  apply lacks_cons in H; destruct H as [Ha Ht].
  simpl; rewrite Ha, (IH Ht); reflexivity.
Qed.

(** The entry point is used for the error message only. *)
Lemma findStep_entry (current : Node) (part e e' : string) (n : Node) :
  findStep current part e = Ok n -> findStep current part e' = Ok n.
Proof.
  unfold findStep; destruct (strings.Contains part "["); [exact (fun H => H) |].
  destruct (getMapValue current part) as [[next |] | err | p]; simpl;
    (exact (fun H => H) || discriminate).
Qed.

Lemma findLoop_entry (parts : list string) (current : Node) (e e' : string)
    (n : Node) :
  findLoop current parts e = Ok n -> findLoop current parts e' = Ok n.
Proof.
  revert current; induction parts as [| part rest IH]; intros current; simpl.
  - exact (fun H => H).
  - destruct (findStep current part e) as [next | err | p] eqn:Hs; simpl;
      try discriminate.
    rewrite (findStep_entry _ _ _ e' _ Hs); simpl; apply IH.
Qed.

Lemma findLoop_app (ps qs : list string) (current : Node) (e : string) :
  findLoop current (ps ++ qs) e
  = (mid <- findLoop current ps e ;; findLoop mid qs e).
Proof.
  revert current; induction ps as [| part rest IH]; intros current; simpl.
  - reflexivity.
  - destruct (findStep current part e) as [next | err | p]; simpl;
      [apply IH | reflexivity | reflexivity].
Qed.

(** X3: resolving the expression [p.q] succeeds exactly when [p]
    resolves from the root to some node and [q] resolves from that node,
    and it finds the same node: resolution composes along the dots. *)
Theorem X3_resolution_composes (root n : Node) (p q : string) :
  findNodeByPath root (p ++ "." ++ q) = Ok n <->
  exists mid, findNodeByPath root p = Ok mid /\ findNodeByPath mid q = Ok n.
Proof.
  unfold findNodeByPath.
  change (p ++ "." ++ q) with (p ++ String "." q).
  rewrite Split_app, findLoop_app.
  set (e := p ++ String "." q).
  split.
  - destruct (findLoop root (strings.Split p ".") e) as [mid | err | pn] eqn:H1;
      simpl; try discriminate.
    intros H2; exists mid; split.
    + exact (findLoop_entry _ _ _ p _ H1).
    + exact (findLoop_entry _ _ _ q _ H2).
  - intros [mid [H1 H2]].
    rewrite (findLoop_entry _ _ _ e _ H1); simpl.
    exact (findLoop_entry _ _ _ e _ H2).
Qed.

(** ** Indexed segments: what is read and what is ignored *)

(** X4: in an indexed segment everything after the first closing
    bracket is ignored: [name[i]rest] resolves exactly as [name[i]], so
    a second index as in [name[0][1]] is silently dropped. *)
Theorem X4_text_after_bracket_ignored (current : Node)
    (name istr rest entry : string) :
  lacks name "[" -> lacks name "]" -> lacks istr "]" ->
  findStep current (indexed name istr rest) entry
  = findStep current (indexed name istr EmptyString) entry.
Proof.
  intros H1 H2 H3; rewrite !findStep_indexed by assumption; reflexivity.
Qed.

Lemma X4_text_after_bracket_ignored_witness :
  findStep pod "containers[1][7]" "containers[1][7]"
  = findStep pod "containers[1]" "containers[1][7]".
Proof.
  apply (X4_text_after_bracket_ignored pod "containers" "1" "[7]"
           "containers[1][7]"); reflexivity.
Defined.

(** X5: an indexed segment whose key is present but whose value is not
    a sequence fails with the index-out-of-range error for every index
    text, negative numbers included: the kind test comes before the
    element access, so there is no panic. *)
Theorem X5_index_into_non_sequence (current child : Node)
    (name istr rest entry : string) :
  lacks name "[" -> lacks name "]" -> lacks istr "]" ->
  getMapValue current name = Ok (Some child) ->
  Kind child <> yaml.SequenceNode ->
  findStep current (indexed name istr rest) entry
  = Err (IndexOutOfRange name (fst (strconv.Atoi istr))).
Proof.
  intros H1 H2 H3 Hg HK; rewrite findStep_indexed by assumption.
  apply (descend_too_large current child); [exact Hg | left; exact HK].
Qed.

Lemma X5_index_into_non_sequence_witness :
  findStep alertmanager "alertmanager[-1]" "alertmanager[-1]"
  = Err "index [-1] out of range for alertmanager".
Proof.
  apply (X5_index_into_non_sequence alertmanager
           (mapping
              [ plain "enabled"; plain "false";
                plain "namespaceOverride";
                scalar yaml.DoubleQuotedStyle EmptyString;
                plain "annotations"; mapping [ plain "snooze"; plain "true" ];
                plain "apiVersion"; scalar yaml.DoubleQuotedStyle "v2" ])
           "alertmanager" "-1" EmptyString "alertmanager[-1]");
    try reflexivity; discriminate.
Defined.

(** ** The index that [walk] prints is the index that the resolver reads *)










(** * Further properties of the flattener and of the program *)

(** ** Where a panic can come from *)

Lemma snd_andThen_none (a b : writes) :
  snd a = None -> snd b = None -> snd (a ;; b) = None.
Proof.
  destruct a as [oa [pa |]], b as [ob pb]; simpl; intros Ha Hb;
    [discriminate | exact Hb].
Qed.

Lemma walkLeaf_no_panic (sep : string) (node : Node) (path : list string) :
  snd (walkLeaf sep node path) = None.
Proof.
  unfold walkLeaf; destruct (isBlock node).
  - rewrite writeLines_spec by lia; reflexivity.
  - destruct (needsQuotes (Value node)); reflexivity.
Qed.

Lemma forPairs_no_panic (body : Node -> Node -> writes) (n : Z)
    (l : list Node) :
  Nat.Even (List.length l) ->
  (forall k v, In v (values l) -> snd (body k v) = None) ->
  snd (forPairs body n l) = None.
Proof.
  induction l as [| k | k v rest IH] using pairs_ind; intros Hev H.
  - reflexivity.
  - destruct Hev as [m Hm]; simpl in Hm; lia.
  - change (forPairs body n (k :: v :: rest))
      with (body k v ;; forPairs body n rest).
    apply snd_andThen_none.
    + apply H; left; reflexivity.
    + apply IH.
      * apply (proj1 (Nat.Even_succ_succ _)); exact Hev.
      * intros k' v' Hin; apply H; right; exact Hin.
Qed.

Lemma forItems_no_panic (body : Z -> Node -> writes) (l : list Node) (i : Z) :
  (forall j item, In item l -> snd (body j item) = None) ->
  snd (forItems body l i) = None.
Proof.
  revert i; induction l as [| item rest IH]; intros i H; [reflexivity |].
  change (forItems body (item :: rest) i)
    with (body i item ;; forItems body rest (i + 1)).
  apply snd_andThen_none.
  - apply H; left; reflexivity.
  - apply IH; intros j x Hin; apply H; right; exact Hin.
Qed.

Lemma wellFormed_unfold (node : Node) :
  wellFormed node
  = (if yaml.Kind_eqb (Kind node) yaml.MappingNode
     then Nat.even (List.length (Content node)) else true)
    && forallb wellFormed (Content node).
Proof. destruct node as [k s v c]; reflexivity. Qed.

Lemma wellFormed_child (node c : Node) :
  wellFormed node = true -> In c (Content node) -> wellFormed c = true.
Proof.
  rewrite wellFormed_unfold; intros H Hin.
  apply andb_true_iff in H; destruct H as [_ H].
  rewrite forallb_forall in H; exact (H c Hin).
Qed.

Lemma wellFormed_mapping (node : Node) :
  wellFormed node = true -> Kind node = yaml.MappingNode ->
  Nat.Even (List.length (Content node)).
Proof.
  rewrite wellFormed_unfold; intros H HK; rewrite HK in H.
  apply andb_true_iff in H; destruct H as [H _].
  apply Nat.even_spec; exact H.
Qed.

Lemma suffixLast_ok (path : list string) (i : Z) :
  path <> [] -> exists q, suffixLast path i = Ok q /\ q <> [].
Proof.
  intros Hne; destruct path as [| a p]; [contradiction |].
  eexists; split; [reflexivity |].
  intros E; apply app_eq_nil in E; destruct E as [_ E]; discriminate.
Qed.

Lemma walk_no_panic (ie : bool) (sep : string) (node : Node) :
  wellFormed node = true ->
  forall path remain,
    path <> [] \/ Kind node <> yaml.SequenceNode ->
    snd (walk ie sep node path remain) = None.
Proof.
  induction node as [kind s v c IH] using Node_forall_ind.
  intros Hwf path remain Hp; rewrite walk_unfold.
  destruct (negb ie && isEmptyNode (yaml.mkNode kind s v c)); [reflexivity |].
  rewrite Forall_forall in IH.
  assert (Hc : forall x, In x c -> wellFormed x = true)
    by (intros x Hx; exact (wellFormed_child _ x Hwf Hx)).
  unfold walkSwitch; cbn [Kind Content] in *.
  destruct kind; try apply walkLeaf_no_panic.
  - destruct Hp as [Hp | Hp]; [| contradiction].
    destruct (remain =? 0); [reflexivity |].
    apply forItems_no_panic; intros j item Hin.
    destruct (suffixLast_ok path j Hp) as [q [Hq Hne]]; rewrite Hq.
    apply IH; [exact Hin | exact (Hc item Hin) | left; exact Hne].
  - destruct (remain =? 0); [reflexivity |].
    apply forPairs_no_panic.
    + exact (wellFormed_mapping _ Hwf eq_refl).
    + intros key val Hin; apply values_incl in Hin.
      apply IH; [exact Hin | exact (Hc val Hin) |].
      left; intros E; apply app_eq_nil in E; destruct E as [_ E]; discriminate.
Qed.

(** X7: on a tree in which every mapping has its keys and values in
    pairs, [walk] never panics when the prefix is not empty or the node
    is not a sequence, whatever the flags and the budget. *)
Theorem X7_walk_never_panics (ie : bool) (sep : string) (node : Node)
    (path : list string) (remain : Z) :
  wellFormed node = true ->
  path <> [] \/ Kind node <> yaml.SequenceNode ->
  snd (walk ie sep node path remain) = None.
Proof.
  intros Hwf Hp; apply walk_no_panic; assumption.
Qed.

Lemma X7_walk_never_panics_witness :
  snd (walk true "=" pod [] (-1)) = None.
Proof.
  apply (X7_walk_never_panics true "=" pod [] (-1)).
  - reflexivity.
  - right; discriminate.
Defined.

(** ** What the resolver hands to the flattener *)

Lemma getMapValue_member (node : Node) (key : string) (v : Node) :
  getMapValue node key = Ok (Some v) -> In v (Content node).
Proof.
  unfold getMapValue; destruct (negb _); [discriminate |].
  intros H; apply lookupPairs_found in H.
  destruct H as [pre [k [rest [Hl _]]]]; rewrite Hl.
  apply in_or_app; right; right; left; reflexivity.
Qed.

Lemma index_member {A : Type} (l : list A) (i : Z) (x : A) :
  index l i = Ok x -> In x l.
Proof.
  unfold index; destruct (_ && _); [| discriminate].
  destruct (nth_error l (Z.to_nat i)) eqn:E; [| discriminate].
  intros H; injection H as <-; exact (nth_error_In _ _ E).
Qed.

Lemma within_trans (a b c : Node) : within a b -> within b c -> within a c.
Proof.
  intros Hab Hbc; induction Hbc as [| parent n _ IH Hin]; [exact Hab |].
  exact (within_child a parent n IH Hin).
Qed.

Lemma findStep_within (current : Node) (part entry : string) (n : Node) :
  findStep current part entry = Ok n -> within current n.
Proof.
  unfold findStep; destruct (strings.Contains part "[").
  - unfold slice.
    destruct (_ && _); simpl bind; [| discriminate].
    destruct (_ && _); simpl bind; [| discriminate].
    unfold descend.
    destruct (getMapValue current _) as [[child |] | e | p] eqn:Hg;
      simpl bind; try discriminate.
    destruct (_ || _); [discriminate |].
    intros H; apply index_member in H.
    apply (within_child current child n); [| exact H].
    apply (within_child current current child); [apply within_self |].
    exact (getMapValue_member _ _ _ Hg).
  - destruct (getMapValue current part) as [[next |] | e | p] eqn:Hg;
      simpl bind; try discriminate.
    intros H; injection H as <-.
    apply (within_child current current next); [apply within_self |].
    exact (getMapValue_member _ _ _ Hg).
Qed.

Lemma findLoop_within (parts : list string) (current : Node) (entry : string)
    (n : Node) :
  findLoop current parts entry = Ok n -> within current n.
Proof.
  revert current; induction parts as [| part rest IH]; intros current; simpl.
  - intros H; injection H as <-; apply within_self.
  - destruct (findStep current part entry) as [next | e | p] eqn:Hs;
      simpl bind; try discriminate.
    intros H; exact (within_trans _ _ _ (findStep_within _ _ _ _ Hs) (IH _ H)).
Qed.

Lemma within_wellFormed (root n : Node) :
  within root n -> wellFormed root = true -> wellFormed n = true.
Proof.
  intros Hw Hwf; induction Hw as [| parent n _ IH Hin]; [exact Hwf |].
  exact (wellFormed_child parent n IH Hin).
Qed.

(** X8: a node that [findNodeByPath] returns is a node of the tree it
    was given: the root itself or a node reached from it through
    [Content]; so it is a tree in which every mapping has its keys and
    values in pairs whenever the tree given is one. *)
Theorem X8_resolved_node_is_in_tree (root n : Node) (entry : string) :
  findNodeByPath root entry = Ok n ->
  within root n
  /\ (wellFormed root = true -> wellFormed n = true).
Proof.
  intros H; apply findLoop_within in H.
  split; [exact H | exact (within_wellFormed root n H)].
Qed.

Lemma X8_resolved_node_is_in_tree_witness :
  within pod (plain "db").
Proof.
  apply (X8_resolved_node_is_in_tree pod (plain "db") "containers[1].name").
  reflexivity.
Defined.

(** ** How a run ends *)

Lemma finish_snd (w : writes) :
  snd w = None -> snd (finish w) = Returned.
Proof. destruct w as [o [p |]]; simpl; [discriminate | reflexivity]. Qed.

Lemma finish_not_reported (w : writes) (o : list string) (e : ending) :
  finish w = (o, e) -> e = Returned \/ exists p, e = Crashed p.
Proof.
  destruct w as [o' [p |]]; simpl; intros H; injection H as _ <-;
    [right; exists p; reflexivity | left; reflexivity].
Qed.

(** X9: on a document in which every mapping has its keys and values in
    pairs, and with a separator that [main] accepts, the run returns
    normally, without a panic, whenever the entry path resolves; with
    no entry path it does so whenever the root is not a sequence. *)
Theorem X9_run_returns (entry : string) (depth : Z) (ie : bool)
    (sep : string) (root : Node) :
  validSeparator sep ->
  wellFormed root = true ->
  (entry = EmptyString /\ Kind root <> yaml.SequenceNode)
  \/ (entry <> EmptyString /\ exists n, findNodeByPath root entry = Ok n) ->
  snd (main entry depth ie sep (document root)) = Returned.
Proof.
  intros Hsep Hwf Hentry; unfold main.
  rewrite (main_separator_ok _ Hsep).
  change (index (Content (document root)) 0) with (Ok root).
  destruct Hentry as [[-> HK] | [Hne [n Hn]]].
  - simpl; apply finish_snd, walk_no_panic; [exact Hwf | right; exact HK].
  - apply String.eqb_neq in Hne; rewrite Hne, Hn.
    apply finish_snd, walk_no_panic.
    + exact (within_wellFormed root n (findLoop_within _ _ _ _ Hn) Hwf).
    + left; apply Split_nonempty.
Qed.

Lemma X9_run_returns_witness :
  snd (main "containers[1].name" (-1) false ": " (document pod)) = Returned.
Proof.
  apply (X9_run_returns "containers[1].name" (-1) false ": " pod).
  - left; reflexivity.
  - reflexivity.
  - right; split; [discriminate |].
    exists (plain "db"); reflexivity.
Defined.

Lemma main_valid (entry : string) (depth : Z) (ie : bool) (sep : string)
    (yamlRoot : Node) :
  validSeparator sep ->
  main entry depth ie sep yamlRoot
  = match Content yamlRoot with
    | [] => ([], Crashed (IndexPanic 0 0))
    | root :: _ =>
      if String.eqb entry EmptyString
      then finish (walk ie sep root [] depth)
      else
        match findNodeByPath root entry with
        | Ok n => finish (walk ie sep n (strings.Split entry ".") depth)
        | Err err => ([], Reported err)
        | Panicked p => ([], Crashed p)
        end
    end.
Proof.
  intros Hsep; unfold main; rewrite (main_separator_ok _ Hsep).
  destruct (Content yamlRoot) as [| root rest]; [reflexivity |].
  unfold index; simpl.
  destruct (String.eqb entry EmptyString); reflexivity.
Qed.

(** ** The paths that are printed *)

Lemma Join_cons (a : string) (l : list string) (sep : string) :
  l <> [] -> strings.Join (a :: l) sep = a ++ sep ++ strings.Join l sep.
Proof. destruct l; [contradiction | reflexivity]. Qed.

Lemma Join_snoc (p : list string) (k sep : string) :
  p <> [] ->
  strings.Join (p ++ [k]) sep = strings.Join p sep ++ sep ++ k.
Proof.
  induction p as [| a p IH]; intros Hne; [contradiction |].
  destruct p as [| b r]; [reflexivity |].
  change ((a :: b :: r) ++ [k])%list with (a :: ((b :: r) ++ [k]))%list.
  rewrite Join_cons by (simpl; discriminate).
  rewrite IH by discriminate.
  rewrite (Join_cons a (b :: r)) by discriminate.
  rewrite !append_assoc; reflexivity.
Qed.

Lemma Join_last_append (r : list string) (x s sep : string) :
  strings.Join (r ++ [x ++ s]) sep = strings.Join (r ++ [x]) sep ++ s.
Proof.
  induction r as [| a r IH]; [reflexivity |].
  change ((a :: r) ++ [(x ++ s)%string])%list
    with (a :: (r ++ [(x ++ s)%string]))%list.
  change ((a :: r) ++ [x])%list with (a :: (r ++ [x]))%list.
  rewrite !Join_cons by (destruct r; discriminate).
  rewrite IH, !append_assoc; reflexivity.
Qed.

Lemma suffixLast_Join (p q : list string) (i : Z) :
  suffixLast p i = Ok q ->
  strings.Join q "." = strings.Join p "." ++ "[" ++ fmt.d i ++ "]".
Proof.
  unfold suffixLast; destruct p as [| a p']; [discriminate |].
  intros H.
  assert (Hq : q = (removelast (a :: p')
                      ++ [(last (a :: p') EmptyString
                           ++ "[" ++ fmt.d i ++ "]")%string])%list)
    by (injection H as <-; reflexivity).
  rewrite Hq, Join_last_append.
  rewrite <- (app_removelast_last EmptyString) by discriminate.
  reflexivity.
Qed.

Lemma Join_Split (s : string) (c : ascii) :
  strings.Join (strings.Split s c) (String c EmptyString) = s.
Proof.
  induction s as [| a t IH]; [reflexivity |].
  simpl strings.Split.
  destruct (Ascii.eqb_spec a c) as [-> | _].
  - rewrite Join_cons by apply Split_nonempty.
    rewrite IH; reflexivity.
  - pose proof (Split_nonempty t c) as Hne.
    destruct (strings.Split t c) as [| w ws]; [contradiction |].
    rewrite <- IH; destruct ws; reflexivity.
Qed.

Lemma walk_lines_start (ie : bool) (sep : string) (node : Node) :
  forall (path : list string) (remain : Z) (w : string),
    path <> [] ->
    In w (fst (walk ie sep node path remain)) ->
    (exists line, w = indented line)
    \/ (exists rest, w = strings.Join path "." ++ rest).
Proof.
  induction node as [kind s v c IH] using Node_forall_ind.
  intros path remain w Hne Hin.
  rewrite walk_unfold in Hin.
  destruct (negb ie && isEmptyNode (yaml.mkNode kind s v c));
    [contradiction |].
  rewrite Forall_forall in IH.
  assert (Hleaf : In w (fst (walkLeaf sep (yaml.mkNode kind s v c) path)) ->
            (exists line, w = indented line)
            \/ (exists rest, w = strings.Join path "." ++ rest)).
  { intros H; apply in_walkLeaf in H; destruct H as [H | [rest H]];
      [left; exact H |].
    right; exists (sep ++ rest); rewrite H; unfold lhs.
    apply append_assoc. }
  unfold walkSwitch in Hin; cbn [Kind Content] in Hin.
  destruct kind; try (apply Hleaf; exact Hin).
  - destruct (remain =? 0).
    + destruct Hin as [H | []]; right.
      exists (sep ++ "<array>" ++ nl); rewrite <- H; unfold lhs.
      apply append_assoc.
    + apply in_forItems in Hin; destruct Hin as [j [item [Hitem Hw]]].
      destruct (suffixLast path j) as [q | e | pn] eqn:Hq; try contradiction.
      destruct (suffixLast_ok path j Hne) as [q' [Hq' Hqne]].
      rewrite Hq in Hq'; injection Hq' as <-.
      destruct (IH item Hitem q _ w Hqne Hw) as [H | [rest H]];
        [left; exact H |].
      right; exists ("[" ++ fmt.d j ++ "]" ++ rest).
      rewrite H, (suffixLast_Join _ _ _ Hq), !append_assoc; reflexivity.
  - destruct (remain =? 0).
    + destruct Hin as [H | []]; right.
      exists (sep ++ "<object>" ++ nl); rewrite <- H; unfold lhs.
      apply append_assoc.
    + apply in_forPairs in Hin; destruct Hin as [key [val [Hval Hw]]].
      assert (Hne' : (path ++ [Value key])%list <> [])
        by (intros E; apply app_eq_nil in E; destruct E as [_ E];
            discriminate).
      destruct (IH val (values_incl _ _ Hval) _ _ w Hne' Hw)
        as [H | [rest H]]; [left; exact H |].
      right; exists ("." ++ Value key ++ rest).
      rewrite H, (Join_snoc _ _ _ Hne), !append_assoc; reflexivity.
Qed.

(** X11: every line that [walk] writes below a non-empty prefix starts
    with the joined prefix, the lines of a block scalar apart, which
    stand indented under their header: keys are appended after a dot
    and indices are attached to the last segment, so nothing written
    for a subtree leaves the subtree's path. *)
Theorem X11_lines_start_with_prefix (ie : bool) (sep : string) (node : Node)
    (path : list string) (remain : Z) :
  path <> [] ->
  Forall (fun w => (exists line, w = indented line)
                   \/ (exists rest, w = strings.Join path "." ++ rest))
         (fst (walk ie sep node path remain)).
Proof.
  intros Hne; apply Forall_forall; intros w Hin.
  exact (walk_lines_start ie sep node path remain w Hne Hin).
Qed.

Lemma X11_lines_start_with_prefix_witness :
  Forall (fun w => (exists line, w = indented line)
                   \/ (exists rest, w = strings.Join ["pod"] "." ++ rest))
         (fst (walk false ": " pod ["pod"] (-1))).
Proof.
  apply (X11_lines_start_with_prefix false ": " pod ["pod"] (-1)).
  discriminate.
Defined.

(** X12: the path that [main] prints is the entry path as it was
    typed: splitting the entry at the dots and joining the segments
    with dots gives the entry back, so when the entry resolves every
    line of the output starts with the entry text, the lines of a block
    scalar apart. *)
Theorem X12_output_starts_with_entry (entry : string) (depth : Z) (ie : bool)
    (sep : string) (root n : Node) :
  validSeparator sep ->
  entry <> EmptyString ->
  findNodeByPath root entry = Ok n ->
  strings.Join (strings.Split entry ".") "." = entry
  /\ Forall (fun w => (exists line, w = indented line)
                      \/ (exists rest, w = entry ++ rest))
            (fst (main entry depth ie sep (document root))).
Proof.
  intros Hsep Hne Hf.
  pose proof (Join_Split entry ".") as HJ.
  split; [exact HJ |].
  rewrite (main_valid _ _ _ _ _ Hsep); cbn [Content document].
  apply String.eqb_neq in Hne; rewrite Hne, Hf.
  apply Forall_forall; intros w Hin.
  assert (Hw : In w (fst (walk ie sep n (strings.Split entry ".") depth))).
  { destruct (walk ie sep n (strings.Split entry ".") depth) as [o [p |]];
      exact Hin. }
  pose proof (walk_lines_start ie sep n _ _ w (Split_nonempty entry ".") Hw)
    as H.
  change (String "." EmptyString) with "." in HJ.
  rewrite HJ in H; exact H.
Qed.

Lemma X12_output_starts_with_entry_witness :
  Forall (fun w => (exists line, w = indented line)
                   \/ (exists rest, w = "containers[1]" ++ rest))
         (fst (main "containers[1]" (-1) false "=" (document pod))).
Proof.
  apply (X12_output_starts_with_entry "containers[1]" (-1) false "=" pod
           (mapping [ plain "name"; plain "db" ])).
  - right; reflexivity.
  - discriminate.
  - reflexivity.
Defined.

(** ** What the flag [--all] changes *)

Lemma sublist_refl {A : Type} (l : list A) : sublist l l.
Proof. induction l; constructor; assumption. Qed.

Lemma sublist_nil {A : Type} (l : list A) : sublist [] l.
Proof. induction l; constructor; assumption. Qed.

Lemma sublist_app {A : Type} (a a' b b' : list A) :
  sublist a a' -> sublist b b' -> sublist (a ++ b) (a' ++ b').
Proof.
  intros Ha Hb; induction Ha; simpl; [exact Hb | ..]; constructor; assumption.
Qed.

Lemma fewerWrites_refl (a : writes) : fewerWrites a a.
Proof. split; [apply sublist_refl | reflexivity]. Qed.

Lemma fewerWrites_andThen (a a' b b' : writes) :
  fewerWrites a a' -> fewerWrites b b' -> fewerWrites (a ;; b) (a' ;; b').
Proof.
  destruct a as [oa pa], a' as [oa' pa'], b as [ob pb], b' as [ob' pb'].
  unfold fewerWrites; simpl; intros [Ha <-] [Hb <-].
  destruct pa; simpl; split; auto.
  apply sublist_app; assumption.
Qed.

Lemma fewerWrites_forPairs (f g : Node -> Node -> writes) (n : Z)
    (l : list Node) :
  (forall k v, In v (values l) -> fewerWrites (f k v) (g k v)) ->
  fewerWrites (forPairs f n l) (forPairs g n l).
Proof.
  induction l as [| k | k v rest IH] using pairs_ind; intros H;
    try apply fewerWrites_refl.
  change (forPairs f n (k :: v :: rest)) with (f k v ;; forPairs f n rest).
  change (forPairs g n (k :: v :: rest)) with (g k v ;; forPairs g n rest).
  apply fewerWrites_andThen.
  - apply H; left; reflexivity.
  - apply IH; intros k' v' Hin; apply H; right; exact Hin.
Qed.

Lemma fewerWrites_forItems (f g : Z -> Node -> writes) (l : list Node)
    (i : Z) :
  (forall j item, In item l -> fewerWrites (f j item) (g j item)) ->
  fewerWrites (forItems f l i) (forItems g l i).
Proof.
  revert i; induction l as [| item rest IH]; intros i H;
    [apply fewerWrites_refl |].
  change (forItems f (item :: rest) i)
    with (f i item ;; forItems f rest (i + 1)).
  change (forItems g (item :: rest) i)
    with (g i item ;; forItems g rest (i + 1)).
  apply fewerWrites_andThen.
  - apply H; left; reflexivity.
  - apply IH; intros j x Hin; apply H; right; exact Hin.
Qed.

(** A node classified empty is walked without a panic when it is not
    skipped. *)
Lemma walkSwitch_empty_no_panic (ie : bool) (sep : string) (node : Node)
    (path : list string) (remain : Z) :
  isEmptyNode node = true ->
  snd (walkSwitch ie sep node path remain) = None.
Proof.
  intros He; apply isEmptyNode_spec in He.
  unfold walkSwitch.
  destruct He as [[HK _] | [[HK | HK] Hc]]; rewrite HK.
  - apply walkLeaf_no_panic.
  - rewrite Hc; destruct (remain =? 0); reflexivity.
  - rewrite Hc; destruct (remain =? 0); reflexivity.
Qed.

Lemma walk_fewer_without_all (sep : string) (node : Node) :
  forall (path : list string) (remain : Z),
    fewerWrites (walk false sep node path remain)
                (walk true sep node path remain).
Proof.
  induction node as [kind s v c IH] using Node_forall_ind.
  intros path remain; rewrite !walk_unfold.
  simpl negb; simpl andb.
  rewrite Forall_forall in IH.
  destruct (isEmptyNode (yaml.mkNode kind s v c)) eqn:He.
  - split; [apply sublist_nil |].
    symmetry; apply walkSwitch_empty_no_panic; exact He.
  - unfold walkSwitch; cbn [Kind Content].
    destruct kind; try apply fewerWrites_refl.
    + destruct (remain =? 0); [apply fewerWrites_refl |].
      apply fewerWrites_forItems; intros j item Hin.
      destruct (suffixLast path j); try apply fewerWrites_refl.
      apply IH; exact Hin.
    + destruct (remain =? 0); [apply fewerWrites_refl |].
      apply fewerWrites_forPairs; intros key val Hin.
      apply IH; apply values_incl; exact Hin.
Qed.

(** X13: the flag [--all] only adds lines: what [walk] writes without
    it is what it writes with it, with some lines left out and the
    others in the same order, and the two walks end alike (both return,
    or both stop in the same panic). *)
Theorem X13_all_only_adds_lines (sep : string) (node : Node)
    (path : list string) (remain : Z) :
  sublist (fst (walk false sep node path remain))
          (fst (walk true sep node path remain))
  /\ snd (walk false sep node path remain)
     = snd (walk true sep node path remain).
Proof.
  exact (walk_fewer_without_all sep node path remain).
Qed.

(** ** Reading values back from the lines *)

Lemma Split_pieces_lack (s : string) (c : ascii) :
  Forall (fun w => lacks w c) (strings.Split s c).
Proof.
  induction s as [| a t IH]; simpl.
  - constructor; [reflexivity | constructor].
  - destruct (Ascii.eqb a c) eqn:Ea.
    + constructor; [reflexivity | exact IH].
    + destruct (strings.Split t c) as [| w ws]; inversion IH; subst;
        constructor; try constructor; try assumption;
        apply lacks_cons; split; assumption || reflexivity.
Qed.

Lemma Forall_removelast {A : Type} (P : A -> Prop) (l : list A) :
  Forall P l -> Forall P (removelast l).
Proof.
  induction l as [| x l IH]; intros H; [constructor |].
  inversion H; subst; destruct l; [constructor |].
  change (removelast (x :: a :: l)) with (x :: removelast (a :: l)).
  constructor; [assumption | apply IH; assumption].
Qed.

Lemma blockLines_value (val : string) :
  Forall (fun l => lacks l LF) (blockLines val)
  /\ (val = strings.Join (blockLines val) nl
      \/ val = strings.Join (blockLines val) nl ++ nl).
Proof.
  unfold blockLines.
  pose proof (Join_Split val LF) as HJ; fold nl in HJ.
  pose proof (Split_pieces_lack val LF) as HL.
  pose proof (Split_nonempty val LF) as Hne.
  destruct (String.eqb_spec (last (strings.Split val LF) EmptyString)
                            EmptyString) as [E | N].
  - split; [apply Forall_removelast; exact HL |].
    rewrite (app_removelast_last EmptyString Hne), E in HJ.
    destruct (removelast (strings.Split val LF)) as [| a r] eqn:Er.
    + left; rewrite <- HJ; reflexivity.
    + right; rewrite <- HJ, Join_snoc by discriminate.
      rewrite append_nil_r; reflexivity.
  - split; [exact HL | left; symmetry; exact HJ].
Qed.

(** X14: the lines that [walk] writes under the header of a block
    scalar hold the value: each is one line of the value behind two
    spaces, none contains a line feed, and joined by line feeds they
    give the value back, up to the one final line feed that the loop
    leaves out. *)
Theorem X14_block_lines_hold_value (ie : bool) (sep : string) (node : Node)
    (path : list string) (remain : Z) :
  kept ie node = true ->
  isBlock node = true ->
  exists lines,
    walk ie sep node path remain
    = ((lhs sep path ++ "|-" ++ nl) :: map indented lines, None)
    /\ Forall (fun l => lacks l LF) lines
    /\ (Value node = strings.Join lines nl
        \/ Value node = strings.Join lines nl ++ nl).
Proof.
  intros Hkept Hb; exists (blockLines (Value node)).
  split; [| apply blockLines_value].
  rewrite (walk_kept _ _ _ _ _ Hkept).
  assert (HK : Kind node = yaml.ScalarNode).
  { unfold isBlock in Hb; destruct (Kind node); try discriminate; reflexivity. }
  rewrite (walkSwitch_scalar _ _ _ _ _ HK).
  apply walkLeaf_block; exact Hb.
Qed.

Lemma X14_block_lines_hold_value_witness :
  exists lines,
    walk false ": " (plain ("a" ++ nl ++ nl ++ "b" ++ nl)) ["k"] 0
    = ((lhs ": " ["k"] ++ "|-" ++ nl) :: map indented lines, None)
    /\ Forall (fun l => lacks l LF) lines
    /\ ("a" ++ nl ++ nl ++ "b" ++ nl = strings.Join lines nl
        \/ "a" ++ nl ++ nl ++ "b" ++ nl = strings.Join lines nl ++ nl).
Proof.
  apply (X14_block_lines_hold_value false ": "
           (plain ("a" ++ nl ++ nl ++ "b" ++ nl)) ["k"] 0); reflexivity.
Defined.

Lemma escaped_head (t : string) :
  match escaped t with
  | EmptyString => t = EmptyString
  | String b _ => Ascii.eqb b dquote = false
  end.
Proof.
  unfold escaped; destruct t as [| x t]; [reflexivity |].
  simpl; destruct (Ascii.eqb x dquote) eqn:E; [reflexivity | exact E].
Qed.

Lemma unescape_cons (a : ascii) (t : string) :
  unescape (String a t)
  = match t with
    | String b t' =>
      if Ascii.eqb a backslash && Ascii.eqb b dquote
      then String dquote (unescape t')
      else String a (unescape t)
    | EmptyString => String a EmptyString
    end.
Proof. reflexivity. Qed.

(** X15: the escaping of a quoted value loses nothing: dropping the
    backslash before each double quote of the escaped text gives the
    value back, although backslashes themselves are not escaped. *)
Theorem X15_escaping_is_reversible (val : string) :
  unescape (escaped val) = val.
Proof.
  induction val as [| a t IH]; [reflexivity |].
  unfold escaped in *; simpl strings.ReplaceAll.
  destruct (Ascii.eqb_spec a dquote) as [-> | Na].
  - simpl append; rewrite unescape_cons.
    replace (Ascii.eqb backslash backslash && Ascii.eqb dquote dquote)
      with true by reflexivity.
    rewrite IH; reflexivity.
  - rewrite unescape_cons.
    pose proof (escaped_head t) as Hh; unfold escaped in Hh.
    destruct (strings.ReplaceAll t dquote
                (String backslash (String dquote EmptyString)))
      as [| b t'] eqn:Et.
    + rewrite Hh; reflexivity.
    + rewrite Hh, andb_false_r, IH; reflexivity.
Qed.

(** ** Blank scalars *)

Lemma byteAt_ascii (s : string) (n : nat) :
  allASCII s = true -> utf8.byteAt s n < utf8.RuneSelf.
Proof.
  revert n; induction s as [| a t IH]; intros n H.
  - destruct n; reflexivity.
  - simpl in H; apply andb_true_iff in H; destruct H as [Ha Ht].
    destruct n as [| n]; [apply Z.ltb_lt; exact Ha | exact (IH n Ht)].
Qed.

Lemma trimStart_ascii (s : string) (i : Z) :
  allASCII s = true ->
  snd (strings.trimStart s i) = false
  /\ (allSpace s = true -> fst (strings.trimStart s i) = i + len s)
  /\ (allSpace s = false ->
      exists k, fst (strings.trimStart s i) = i + Z.of_nat k
                /\ (k < String.length s)%nat
                /\ strings.asciiSpace (utf8.byteAt s k) = false).
Proof.
  revert i; induction s as [| a t IH]; intros i H.
  - repeat split; [intros _; unfold len; simpl; lia | discriminate].
  - simpl in H; apply andb_true_iff in H; destruct H as [Ha Ht].
    apply Z.ltb_lt in Ha.
    simpl strings.trimStart; simpl allSpace.
    destruct (Z.leb_spec utf8.RuneSelf (byte_of a)); [lia |].
    destruct (strings.asciiSpace (byte_of a)) eqn:Esp; simpl andb.
    + destruct (IH (i + 1) Ht) as [I1 [I2 I3]].
      split; [exact I1 |]; split.
      * intros Hs; rewrite (I2 Hs), len_cons; lia.
      * intros Hs; destruct (I3 Hs) as [k [Hk [Hlt Hb]]].
        exists (S k); repeat split; [rewrite Hk; lia | simpl; lia | exact Hb].
    + repeat split; [discriminate |].
      intros _; exists 0%nat; repeat split;
        [simpl; lia | simpl; lia | exact Esp].
Qed.

Lemma trimStop_ascii (s : string) (start : Z) :
  allASCII s = true -> 0 <= start ->
  strings.asciiSpace (utf8.byteAt s (Z.to_nat start)) = false ->
  forall (k : nat) (stop : Z),
    start < stop -> stop - start <= Z.of_nat k ->
    snd (strings.trimStop s start stop k) = false
    /\ start < fst (strings.trimStop s start stop k) <= stop.
Proof.
  intros Hs H0 Hb; induction k as [| k IH]; intros stop Hlt Hk; [lia |].
  simpl strings.trimStop.
  destruct (Z.leb_spec stop start); [lia |].
  pose proof (byteAt_ascii s (Z.to_nat (stop - 1)) Hs) as Ha.
  destruct (Z.leb_spec utf8.RuneSelf (utf8.byteAt s (Z.to_nat (stop - 1))));
    [lia |].
  destruct (strings.asciiSpace (utf8.byteAt s (Z.to_nat (stop - 1))))
    eqn:Esp.
  - assert (Hneq : stop - 1 <> start)
      by (intros E; rewrite E, Hb in Esp; discriminate).
    destruct (IH (stop - 1)) as [I1 I2]; [lia | lia |].
    split; [exact I1 | lia].
  - simpl; split; [reflexivity | lia].
Qed.

Lemma substring_nonempty (s : string) (n m : nat) :
  (n < String.length s)%nat -> (0 < m)%nat ->
  substring n m s <> EmptyString.
Proof.
  revert n; induction s as [| a t IH]; intros n Hn Hm; [simpl in Hn; lia |].
  destruct n as [| n].
  - destruct m; [lia | simpl; discriminate].
  - simpl; apply IH; [simpl in Hn; lia | exact Hm].
Qed.

Lemma substring_end (s : string) : substring (String.length s) 0 s = EmptyString.
Proof. induction s as [| a t IH]; [reflexivity | exact IH]. Qed.

Lemma TrimSpace_ascii (s : string) :
  allASCII s = true ->
  (strings.TrimSpace s = EmptyString <-> allSpace s = true).
Proof.
  intros Hs; unfold strings.TrimSpace.
  destruct (trimStart_ascii s 0 Hs) as [H1 [H2 H3]].
  destruct (strings.trimStart s 0) as [start slow]; simpl in H1, H2, H3.
  subst slow.
  destruct (allSpace s) eqn:Esp.
  - rewrite (H2 eq_refl).
    split; [reflexivity | intros _].
    assert (Hstop : strings.trimStop s (len s) (len s) (String.length s)
                    = (len s, false)).
    { destruct (String.length s); simpl; [reflexivity |].
      rewrite Z.leb_refl; reflexivity. }
    rewrite Hstop, Z.sub_diag; unfold len; rewrite Nat2Z.id.
    apply substring_end.
  - split; [| discriminate]; intros Hempty; exfalso.
    destruct (H3 eq_refl) as [k [Hk [Hlt Hb]]].
    assert (Hstart : 0 <= start) by lia.
    assert (Hbs : strings.asciiSpace (utf8.byteAt s (Z.to_nat start)) = false)
      by (rewrite Hk; simpl Z.add; rewrite Nat2Z.id; exact Hb).
    destruct (trimStop_ascii s start Hs Hstart Hbs (String.length s) (len s))
      as [T1 T2]; [unfold len; lia | unfold len; lia |].
    destruct (strings.trimStop s start (len s) (String.length s))
      as [stop slow]; simpl in T1, T2; subst slow.
    revert Hempty; apply substring_nonempty; lia.
Qed.

(** X16: a scalar whose value is made of ASCII bytes is classified
    empty exactly when all its bytes are white space (space, tab, line
    feed, vertical tab, form feed, carriage return): one visible
    character anywhere keeps the scalar in the output. *)
Theorem X16_blank_ascii_scalar (node : Node) :
  Kind node = yaml.ScalarNode ->
  allASCII (Value node) = true ->
  (isEmptyNode node = true <-> allSpace (Value node) = true).
Proof.
  intros HK Ha; unfold isEmptyNode; rewrite HK, String.eqb_eq.
  apply TrimSpace_ascii; exact Ha.
Qed.

Lemma X16_blank_ascii_scalar_witness :
  isEmptyNode (plain ("  " ++ nl ++ " ")) = true
  <-> allSpace ("  " ++ nl ++ " ") = true.
Proof.
  apply (X16_blank_ascii_scalar (plain ("  " ++ nl ++ " "))); reflexivity.
Defined.

(** ** Line-oriented output *)

Lemma in_walkLeaf_ends (sep : string) (node : Node) (path : list string)
    (w : string) :
  In w (fst (walkLeaf sep node path)) -> exists body, w = body ++ nl.
Proof.
  unfold walkLeaf; destruct (isBlock node).
  - rewrite writeLines_spec by lia; simpl; intros [H | H].
    + exists (lhs sep path ++ "|-"); rewrite <- H, append_assoc; reflexivity.
    + apply in_map_iff in H; destruct H as [line [H _]].
      exists ("  " ++ line); rewrite <- H; reflexivity.
  - destruct (needsQuotes (Value node)); simpl; intros [H | []].
    + exists (lhs sep path ++ String dquote (escaped (Value node))
                ++ String dquote EmptyString).
      rewrite <- H, !append_assoc; reflexivity.
    + exists (lhs sep path ++ Value node).
      rewrite <- H, append_assoc; reflexivity.
Qed.

Lemma walk_writes_end (ie : bool) (sep : string) (node : Node) :
  forall (path : list string) (remain : Z) (w : string),
    In w (fst (walk ie sep node path remain)) -> exists body, w = body ++ nl.
Proof.
  induction node as [kind s v c IH] using Node_forall_ind.
  intros path remain w Hin; rewrite walk_unfold in Hin.
  destruct (negb ie && isEmptyNode (yaml.mkNode kind s v c));
    [contradiction |].
  rewrite Forall_forall in IH.
  unfold walkSwitch in Hin; cbn [Kind Content] in Hin.
  destruct kind; try (exact (in_walkLeaf_ends _ _ _ _ Hin)).
  - destruct (remain =? 0).
    + destruct Hin as [H | []].
      exists (lhs sep path ++ "<array>"); rewrite <- H, append_assoc;
        reflexivity.
    + apply in_forItems in Hin; destruct Hin as [j [item [Hitem Hw]]].
      destruct (suffixLast path j); try contradiction.
      exact (IH item Hitem _ _ w Hw).
  - destruct (remain =? 0).
    + destruct Hin as [H | []].
      exists (lhs sep path ++ "<object>"); rewrite <- H, append_assoc;
        reflexivity.
    + apply in_forPairs in Hin; destruct Hin as [key [val [Hval Hw]]].
      exact (IH val (values_incl _ _ Hval) _ _ w Hw).
Qed.

(** X17: everything [walk] writes is made of whole lines: each write,
    whether a placeholder, a header, a scalar line or a line of a block
    scalar, ends with a line feed, also when the walk stops in a
    panic. *)
Theorem X17_writes_are_lines (ie : bool) (sep : string) (node : Node)
    (path : list string) (remain : Z) :
  Forall (fun w => exists body, w = body ++ nl)
         (fst (walk ie sep node path remain)).
Proof.
  apply Forall_forall; intros w Hin.
  exact (walk_writes_end ie sep node path remain w Hin).
Qed.

(** * The depth budget (C10) *)

(** ** Counting the segments of a printed path *)

Lemma count_append (a b : string) (c : ascii) :
  count (a ++ b) c = count a c + count b c.
Proof. induction a as [| x a IH]; simpl; [reflexivity | rewrite IH; lia]. Qed.

Lemma lacks_count (s : string) (c : ascii) : lacks s c -> count s c = 0.
Proof.
  induction s as [| x s IH]; intros H; [reflexivity |].
  apply lacks_cons in H; destruct H as [Hx Hs].
  simpl; rewrite Hx, (IH Hs); reflexivity.
Qed.

Lemma segments_append (a b : string) :
  segments (a ++ b) = segments a + segments b.
Proof. unfold segments; rewrite !count_append; lia. Qed.

Lemma segments_lacks (s : string) :
  lacks s "." -> lacks s "[" -> segments s = 0.
Proof.
  intros H1 H2; unfold segments.
  rewrite (lacks_count _ _ H1), (lacks_count _ _ H2); reflexivity.
Qed.

Lemma plainKey_spec (sep key : string) :
  plainKey sep key = true ->
  lacks key "." /\ lacks key "[" /\ lacks key (sepByte sep).
Proof.
  unfold plainKey, lacks; rewrite !andb_true_iff, !Z.ltb_lt.
  intros [[H1 H2] H3].
  destruct (Index_range key ".") as [E1 | R1]; [| lia].
  destruct (Index_range key "[") as [E2 | R2]; [| lia].
  destruct (Index_range key (sepByte sep)) as [E3 | R3]; [| lia].
  auto.
Qed.

(** What [%d] prints holds digits and at most a sign. *)
Lemma uint_lacks (d : Decimal.uint) (c : ascii) :
  strconv.isDigit (byte_of c) = false ->
  lacks (NilEmpty.string_of_uint d) c.
Proof.
  intros Hc.
  induction d; [reflexivity | ..]; simpl NilEmpty.string_of_uint;
    apply lacks_cons; (split; [| assumption]);
    match goal with
    | |- Ascii.eqb ?a c = false =>
      destruct (Ascii.eqb_spec a c) as [E | _]; [| reflexivity];
      rewrite <- E in Hc; discriminate Hc
    end.
Qed.

Lemma d_lacks (n : Z) (c : ascii) :
  strconv.isDigit (byte_of c) = false -> Ascii.eqb "-" c = false ->
  lacks (fmt.d n) c.
Proof.
  intros Hc Hm.
  assert (H0 : lacks "0" c).
  { apply lacks_cons; split; [| reflexivity].
    destruct (Ascii.eqb_spec "0" c) as [E | _]; [| reflexivity].
    rewrite <- E in Hc; discriminate Hc. }
  assert (Hu : forall u, lacks (NilZero.string_of_uint u) c).
  { intros u; pose proof (uint_lacks u c Hc) as H.
    destruct u; [exact H0 | exact H ..]. }
  unfold fmt.d; destruct n as [| p | p]; simpl.
  - exact H0.
  - apply Hu.
  - apply lacks_cons; split; [exact Hm | apply Hu].
Qed.

Lemma segments_index (j : Z) : segments ("[" ++ fmt.d j ++ "]") = 1.
Proof.
  change ("[" ++ fmt.d j ++ "]") with (String "[" (fmt.d j ++ "]")).
  unfold segments; simpl count; rewrite !count_append.
  rewrite (lacks_count (fmt.d j) ".") by (apply d_lacks; reflexivity).
  rewrite (lacks_count (fmt.d j) "[") by (apply d_lacks; reflexivity).
  reflexivity.
Qed.

(** The path of a line is what stands before the separator, when the
    first byte of the separator does not occur in it. *)
Lemma pathOf_line (p sep rest : string) :
  sep <> EmptyString -> lacks p (sepByte sep) ->
  pathOf ((p ++ sep) ++ rest) sep = p.
Proof.
  intros Hne Hp; destruct sep as [| c sub]; [contradiction |].
  cbn [sepByte] in Hp; unfold pathOf.
  rewrite append_assoc.
  change (String c sub ++ rest) with (String c (sub ++ rest)).
  rewrite (FirstIndex_at p sub (rest) c Hp).
  pose proof (len_nonneg p).
  destruct (Z.ltb_spec (len p) 0); [lia |].
  unfold len; rewrite Nat2Z.id; apply substring_all.
Qed.

(** A descent into the value of a plain key adds at most one segment,
    a descent into an element of a sequence adds one. *)
Lemma descend_key (sep : string) (path : list string) (k : string) :
  validSeparator sep -> plainKey sep k = true ->
  lacks (strings.Join path ".") (sepByte sep) ->
  lacks (strings.Join (path ++ [k]) ".") (sepByte sep)
  /\ segments (strings.Join (path ++ [k]) ".")
     <= segments (strings.Join path ".") + 1.
Proof.
  intros Hsep Hk Hp.
  destruct (plainKey_spec _ _ Hk) as [K1 [K2 K3]].
  pose proof (segments_lacks k K1 K2) as Hs.
  destruct path as [| a p].
  - simpl; split; [exact K3 | rewrite Hs; vm_compute; discriminate].
  - rewrite Join_snoc by discriminate.
    split.
    + apply lacks_append; [exact Hp |].
      apply lacks_append; [| exact K3].
      destruct Hsep as [-> | ->]; reflexivity.
    + rewrite !segments_append, Hs.
      change (segments ".") with 1; lia.
Qed.

Lemma descend_item (sep : string) (path q : list string) (j : Z) :
  validSeparator sep -> suffixLast path j = Ok q ->
  lacks (strings.Join path ".") (sepByte sep) ->
  lacks (strings.Join q ".") (sepByte sep)
  /\ segments (strings.Join q ".") = segments (strings.Join path ".") + 1.
Proof.
  intros Hsep Hq Hp; rewrite (suffixLast_Join _ _ _ Hq).
  split.
  - apply lacks_append; [exact Hp |].
    change ("[" ++ fmt.d j ++ "]") with (String "[" (fmt.d j ++ "]")).
    destruct Hsep as [-> | ->]; cbn [sepByte];
      (apply lacks_cons; split; [reflexivity |]);
      (apply lacks_append; [apply d_lacks; reflexivity | reflexivity]).
  - rewrite segments_append, segments_index; reflexivity.
Qed.

Lemma in_forPairs_all (Q : Node -> Node -> bool)
    (body : Node -> Node -> writes) (n : Z) (l : list Node) (w : string) :
  allPairs Q l = true ->
  In w (fst (forPairs body n l)) ->
  exists k v, Q k v = true /\ In v l /\ In w (fst (body k v)).
Proof.
  induction l as [| k | k v rest IH] using pairs_ind; intros HQ H;
    try contradiction.
  change (allPairs Q (k :: v :: rest)) with (Q k v && allPairs Q rest) in HQ.
  apply andb_true_iff in HQ; destruct HQ as [Hkv Hrest].
  change (forPairs body n (k :: v :: rest))
    with (body k v ;; forPairs body n rest) in H.
  apply in_fst_andThen in H; destruct H as [H | H].
  - exists k, v; split; [exact Hkv |]; split; [right; left; reflexivity | exact H].
  - destruct (IH Hrest H) as [k' [v' [HQ' [Hin Hw]]]].
    exists k', v'; split; [exact HQ' |]; split; [right; right; exact Hin | exact Hw].
Qed.

(** With a budget [r >= 0] and plain keys, a line written below [path]
    has at most [r] segments more than [path]. *)
Lemma walk_segments (ie : bool) (sep : string) (node : Node) :
  validSeparator sep ->
  forall (path : list string) (r : Z) (w : string),
    allKeys (plainKey sep) node = true ->
    lacks (strings.Join path ".") (sepByte sep) ->
    0 <= r ->
    In w (fst (walk ie sep node path r)) ->
    String.prefix "  " w = false ->
    segments (pathOf w sep) <= segments (strings.Join path ".") + r.
Proof.
  intros Hsep.
  assert (Hne : sep <> EmptyString)
    by (destruct Hsep as [-> | ->]; discriminate).
  induction node as [kind s v c IH] using Node_forall_ind.
  intros path r w Hkeys Hp Hr Hin Hw.
  rewrite walk_unfold in Hin.
  destruct (negb ie && isEmptyNode (yaml.mkNode kind s v c));
    [contradiction |].
  rewrite Forall_forall in IH.
  assert (Hline : forall rest, w = lhs sep path ++ rest ->
            segments (pathOf w sep) <= segments (strings.Join path ".") + r).
  { intros rest ->; unfold lhs; rewrite (pathOf_line _ _ _ Hne Hp); lia. }
  assert (Hleaf : In w (fst (walkLeaf sep (yaml.mkNode kind s v c) path)) ->
            segments (pathOf w sep) <= segments (strings.Join path ".") + r).
  { intros H; apply in_walkLeaf in H; destruct H as [[line H] | [rest H]].
    - rewrite H in Hw; unfold indented in Hw.
      rewrite prefix_append in Hw; discriminate.
    - exact (Hline rest H). }
  unfold walkSwitch in Hin; cbn [Kind Content] in Hin.
  destruct kind; try (apply Hleaf; exact Hin).
  - cbn [allKeys] in Hkeys; rewrite forallb_forall in Hkeys.
    destruct (Z.eqb_spec r 0) as [-> | Hr0].
    + destruct Hin as [H | []].
      apply (Hline ("<array>" ++ nl)); symmetry; exact H.
    + apply in_forItems in Hin; destruct Hin as [j [item [Hitem Hin]]].
      destruct (suffixLast path j) as [q | e | pn] eqn:Hq; try contradiction.
      rewrite nextRem_positive in Hin by lia.
      destruct (descend_item sep path q j Hsep Hq Hp) as [Hq1 Hq2].
      assert (Hr' : 0 <= r - 1) by lia.
      pose proof (IH item Hitem q (r - 1) w (Hkeys item Hitem) Hq1 Hr' Hin Hw).
      lia.
  - cbn [allKeys] in Hkeys.
    destruct (Z.eqb_spec r 0) as [-> | Hr0].
    + destruct Hin as [H | []].
      apply (Hline ("<object>" ++ nl)); symmetry; exact H.
    + apply (in_forPairs_all _ _ _ _ _ Hkeys) in Hin.
      destruct Hin as [key [val [HQ [Hval Hin]]]].
      apply andb_true_iff in HQ; destruct HQ as [Hkey Hsub].
      rewrite nextRem_positive in Hin by lia.
      destruct (descend_key sep path (Value key) Hsep Hkey Hp) as [Hq1 Hq2].
      assert (Hr' : 0 <= r - 1) by lia.
      pose proof (IH val Hval _ (r - 1) w Hsub Hq1 Hr' Hin Hw).
      lia.
Qed.

(** ** A budget that never runs out gives the complete flattening *)

Lemma flattenAll_unfold (ie : bool) (sep : string) (node : Node)
    (path : list string) :
  flattenAll ie sep node path =
  if negb ie && isEmptyNode node then []
  else
    match Kind node with
    | yaml.MappingNode =>
      eachPair
        (fun k v => flattenAll ie sep v (path ++ [Value k])%list)
        (Content node)
    | yaml.SequenceNode =>
      eachItem (fun i item => flattenAll ie sep item (attach path i))
               (Content node) 0
    | _ => fst (walkLeaf sep node path)
    end.
Proof.
  destruct node as [k s v c]; destruct k; reflexivity.
Qed.

Lemma forPairs_each (f : Node -> Node -> writes)
    (g : Node -> Node -> list string) (n : Z) (l : list Node) :
  Nat.Even (List.length l) ->
  (forall k v, In v (values l) -> f k v = (g k v, None)) ->
  forPairs f n l = (eachPair g l, None).
Proof.
  induction l as [| k | k v rest IH] using pairs_ind; intros Hev H.
  - reflexivity.
  - destruct Hev as [m Hm]; simpl in Hm; lia.
  - change (forPairs f n (k :: v :: rest)) with (f k v ;; forPairs f n rest).
    change (eachPair g (k :: v :: rest)) with (g k v ++ eachPair g rest)%list.
    rewrite (H k v) by (left; reflexivity).
    rewrite IH; [reflexivity | |].
    + apply (proj1 (Nat.Even_succ_succ _)); exact Hev.
    + intros k' v' Hin; apply H; right; exact Hin.
Qed.

Lemma forItems_each (f : Z -> Node -> writes)
    (g : Z -> Node -> list string) (l : list Node) (i : Z) :
  (forall j item, In item l -> f j item = (g j item, None)) ->
  forItems f l i = (eachItem g l i, None).
Proof.
  revert i; induction l as [| item rest IH]; intros i H; [reflexivity |].
  change (forItems f (item :: rest) i)
    with (f i item ;; forItems f rest (i + 1)).
  change (eachItem g (item :: rest) i)
    with (g i item ++ eachItem g rest (i + 1))%list.
  rewrite (H i item) by (left; reflexivity).
  rewrite (IH (i + 1)) by (intros j x Hin; apply H; right; exact Hin).
  reflexivity.
Qed.

Lemma walk_complete (ie : bool) (sep : string) (node : Node) :
  wellFormed node = true ->
  forall (path : list string) (r : Z),
    path <> [] \/ Kind node <> yaml.SequenceNode ->
    r < 0 \/ height node <= r ->
    walk ie sep node path r = (flattenAll ie sep node path, None).
Proof.
  induction node as [kind s v c IH] using Node_forall_ind.
  intros Hwf path r Hp Hr.
  rewrite walk_unfold, flattenAll_unfold.
  destruct (negb ie && isEmptyNode (yaml.mkNode kind s v c)); [reflexivity |].
  rewrite Forall_forall in IH.
  assert (Hc : forall x, In x c -> wellFormed x = true)
    by (intros x Hx; exact (wellFormed_child _ x Hwf Hx)).
  rewrite height_unfold in Hr; cbn [Content] in Hr.
  pose proof (tallest_nonneg c) as Hnn.
  assert (Hnext : forall x, In x c ->
            nextRem r < 0 \/ height x <= nextRem r).
  { intros x Hx; pose proof (tallest_bound c x Hx).
    destruct Hr as [Hn | Hh].
    - left; rewrite nextRem_negative; lia.
    - right; rewrite nextRem_positive; lia. }
  assert (Hleaf : walkLeaf sep (yaml.mkNode kind s v c) path
                  = (fst (walkLeaf sep (yaml.mkNode kind s v c) path), None)).
  { pose proof (walkLeaf_no_panic sep (yaml.mkNode kind s v c) path) as H.
    destruct (walkLeaf sep (yaml.mkNode kind s v c) path) as [o p].
    simpl in *; rewrite H; reflexivity. }
  unfold walkSwitch; cbn [Kind Content] in *.
  replace (r =? 0) with false by (symmetry; apply Z.eqb_neq; lia).
  destruct kind; try exact Hleaf.
  - destruct Hp as [Hp | Hp]; [| contradiction].
    apply forItems_each; intros j item Hin.
    destruct path as [| a p]; [contradiction |].
    change (suffixLast (a :: p) j) with (Ok (attach (a :: p) j)).
    apply IH; [exact Hin | exact (Hc item Hin) | | exact (Hnext item Hin)].
    left; unfold attach; intros E; apply app_eq_nil in E;
      destruct E as [_ E]; discriminate.
  - apply forPairs_each.
    + exact (wellFormed_mapping _ Hwf eq_refl).
    + intros key val Hin; apply values_incl in Hin.
      apply IH; [exact Hin | exact (Hc val Hin) | | exact (Hnext val Hin)].
      left; intros E; apply app_eq_nil in E; destruct E as [_ E]; discriminate.
Qed.

(** ** A budget that is not negative cuts the flattening at its depth *)

Lemma flattenTo_unfold (ie : bool) (sep : string) (budget : nat)
    (node : Node) (path : list string) :
  flattenTo ie sep budget node path =
  if negb ie && isEmptyNode node then []
  else
    match Kind node with
    | yaml.MappingNode =>
      match budget with
      | O => [lhs sep path ++ "<object>" ++ nl]
      | S less =>
        eachPair
          (fun k v => flattenTo ie sep less v (path ++ [Value k])%list)
          (Content node)
      end
    | yaml.SequenceNode =>
      match budget with
      | O => [lhs sep path ++ "<array>" ++ nl]
      | S less =>
        eachItem (fun i item => flattenTo ie sep less item (attach path i))
                 (Content node) 0
      end
    | _ => fst (walkLeaf sep node path)
    end.
Proof.
  destruct node as [k s v c]; destruct k; reflexivity.
Qed.

Lemma walk_cut (ie : bool) (sep : string) (node : Node) :
  wellFormed node = true ->
  forall (path : list string) (budget : nat),
    path <> [] \/ Kind node <> yaml.SequenceNode ->
    walk ie sep node path (Z.of_nat budget)
    = (flattenTo ie sep budget node path, None).
Proof.
  induction node as [kind s v c IH] using Node_forall_ind.
  intros Hwf path budget Hp.
  rewrite walk_unfold, flattenTo_unfold.
  destruct (negb ie && isEmptyNode (yaml.mkNode kind s v c)); [reflexivity |].
  rewrite Forall_forall in IH.
  assert (Hc : forall x, In x c -> wellFormed x = true)
    by (intros x Hx; exact (wellFormed_child _ x Hwf Hx)).
  assert (Hleaf : walkLeaf sep (yaml.mkNode kind s v c) path
                  = (fst (walkLeaf sep (yaml.mkNode kind s v c) path), None)).
  { pose proof (walkLeaf_no_panic sep (yaml.mkNode kind s v c) path) as H.
    destruct (walkLeaf sep (yaml.mkNode kind s v c) path) as [o p].
    simpl in *; rewrite H; reflexivity. }
  unfold walkSwitch; cbn [Kind Content] in *.
  destruct kind; try exact Hleaf.
  - destruct Hp as [Hp | Hp]; [| contradiction].
    destruct budget as [| less]; [reflexivity |].
    replace (Z.of_nat (S less) =? 0) with false
      by (symmetry; apply Z.eqb_neq; lia).
    rewrite nextRem_positive by lia.
    replace (Z.of_nat (S less) - 1) with (Z.of_nat less) by lia.
    apply forItems_each; intros j item Hin.
    destruct path as [| a p]; [contradiction |].
    change (suffixLast (a :: p) j) with (Ok (attach (a :: p) j)).
    apply IH; [exact Hin | exact (Hc item Hin) |].
    left; unfold attach; intros E; apply app_eq_nil in E;
      destruct E as [_ E]; discriminate.
  - destruct budget as [| less]; [reflexivity |].
    replace (Z.of_nat (S less) =? 0) with false
      by (symmetry; apply Z.eqb_neq; lia).
    rewrite nextRem_positive by lia.
    replace (Z.of_nat (S less) - 1) with (Z.of_nat less) by lia.
    apply forPairs_each.
    + exact (wellFormed_mapping _ Hwf eq_refl).
    + intros key val Hin; apply values_incl in Hin.
      apply IH; [exact Hin | exact (Hc val Hin) |].
      left; intros E; apply app_eq_nil in E; destruct E as [_ E]; discriminate.
Qed.

(** ** The claim *)

(** C10, as stated, fails: a key is appended to the path as it is, and a
    key that itself holds dots brings several dot-separated segments
    with one descent.  With the budget [1] the mapping whose one key is
    [a.b.c] gives, under the prefix [p], the line [p.a.b.c: v], whose
    path has three segments more than the prefix. *)
Lemma C10_dotted_key_exceeds_budget :
  let node := mapping [plain "a.b.c"; plain "v"] in
  let line := "p.a.b.c: v" ++ nl in
  walk false ": " node ["p"] 1 = ([line], None)
  /\ pathOf line ": " = "p.a.b.c"
  /\ strings.Split (pathOf line ": ") "." = ["p"; "a"; "b"; "c"]
  /\ segments (pathOf line ": ") - segments (strings.Join ["p"] ".") = 3
  /\ 1 < segments (pathOf line ": ") - segments (strings.Join ["p"] ".").
Proof.
  repeat split.
Qed.

(** C10, amended: for a separator that the program accepts.  First, the
    bound: when no key of a mapping of the tree holds a dot, an opening
    bracket or the first byte of the separator, and the joined prefix
    does not hold the first byte of the separator, then with a budget
    [d >= 0] every line written that does not start with two spaces,
    as the lines of a block scalar under their header do, has a path,
    the text before the first separator, with at most [d] dots and
    opening brackets more than the joined prefix.  Second and third,
    for a tree in which every mapping has its keys and values in pairs
    and a walk that does not start at a sequence with the empty prefix,
    so that the walk does not panic.  A budget [d >= 0] is a number of
    descents:
    the walk writes the flattening cut at depth [d], [flattenTo], where
    a mapping or sequence met with no descent left gives its placeholder
    and each descent into a value or an element leaves one descent
    fewer.  A negative budget is unlimited: a budget [r < 0], and as
    well a budget of at least the height of the tree, gives the complete
    flattening [flattenAll], which has no budget and descends into every
    mapping and sequence, so that no branch is cut. *)
Theorem C10_depth_budget (ie : bool) (sep : string) (node : Node)
    (prefix : list string) (d r : Z) :
  validSeparator sep ->
  (allKeys (plainKey sep) node = true ->
   lacks (strings.Join prefix ".") (sepByte sep) ->
   0 <= d ->
   Forall (fun w => String.prefix "  " w = false ->
                    segments (pathOf w sep)
                    - segments (strings.Join prefix ".") <= d)
          (fst (walk ie sep node prefix d)))
  /\ (wellFormed node = true ->
      prefix <> [] \/ Kind node <> yaml.SequenceNode ->
      0 <= d ->
      walk ie sep node prefix d
      = (flattenTo ie sep (Z.to_nat d) node prefix, None))
  /\ (wellFormed node = true ->
      prefix <> [] \/ Kind node <> yaml.SequenceNode ->
      r < 0 \/ height node <= r ->
      walk ie sep node prefix r = (flattenAll ie sep node prefix, None)).
Proof.
  intros Hsep; split; [| split].
  - intros Hkeys Hp Hd; apply Forall_forall; intros w Hin Hw.
    pose proof (walk_segments ie sep node Hsep prefix d w Hkeys Hp Hd Hin Hw).
    lia.
  - intros Hwf Hp Hd.
    rewrite <- (Z2Nat.id d Hd) at 1.
    apply walk_cut; assumption.
  - intros Hwf Hp Hr; apply walk_complete; assumption.
Qed.

Lemma C10_depth_budget_witness :
  Forall (fun w => String.prefix "  " w = false ->
                   segments (pathOf w ": ")
                   - segments (strings.Join ["values"] ".") <= 2)
         (fst (walk false ": " alertmanager ["values"] 2))
  /\ walk false ": " alertmanager ["values"] 2
     = (["values.alertmanager.enabled: false" ++ nl;
         "values.alertmanager.annotations: <object>" ++ nl;
         "values.alertmanager.apiVersion: v2" ++ nl], None)
  /\ walk false ": " alertmanager ["values"] (-1)
     = (["values.alertmanager.enabled: false" ++ nl;
         "values.alertmanager.annotations.snooze: true" ++ nl;
         "values.alertmanager.apiVersion: v2" ++ nl], None).
Proof.
  destruct (C10_depth_budget false ": " alertmanager ["values"] 2 (-1))
    as [H1 [H2 H3]]; [left; reflexivity |].
  split; [| split].
  - apply H1; [reflexivity | reflexivity | lia].
  - apply H2; [reflexivity | left; discriminate | lia].
  - apply H3; [reflexivity | left; discriminate | left; lia].
Defined.
